(** * Heap_Id: the id-carrying binary heap of [TD6/heap_id.hpp]

    A shallow embedding of the class template [Heap_Id<Element>] and a
    study of the properties its description states.

    Conventions of the embedding.
    - [unsigned int] is a [Z] in [0, 2^32); every arithmetic operation of the
      source is followed by [wrap].
    - [Element] is instantiated at a signed integer type, modelled by [Z],
      with its usual [<], [<=] and [>].
    - The heap does not copy the elements: a node holds a pointer to a
      caller-owned element.  A pointer is [null] or [addr a]; the caller's
      memory is a [store] mapping addresses to element values.  The heap
      never writes to the store, so the operations take it as a read-only
      argument, and changing an element "from outside" is a change of the
      store between two calls.
    - The header forces assertions on ([# undef NDEBUG] before
      [# include <assert.h>]): a failing [assert] ends the run, outcome
      [Abort].  An access outside an array and a dereference of the null
      pointer are undefined behaviour, outcome [Undefined].
    - [*(elements[pos])] in [lower] and [raise], and [*min] in [pop], apply
      [*] to a node (a [std::pair]); they are read as the element the node
      points to, [*((elements[pos]).first)], which is how [lt] and [le] spell
      it.
    - [new unsigned int [n]] leaves the cells indeterminate: a cell of
      [id_to_pos] or [id_free] is [None] until it is assigned.
      [new Node [n]] value-initialises each pair to [(null, 0)]. *)

From Stdlib Require Import ZArith Lia Bool Sorted Permutation.
From stdpp Require Import base list.

Local Open Scope Z_scope.

(** ** Outcomes *)

Inductive outcome (A : Type) : Type :=
| Ok (a : A)
| Abort        (* an assertion failed *)
| Undefined    (* undefined behaviour: array access out of range, null dereference *)
| OutOfFuel.   (* artefact of the loops' fuel; no call produces it on a heap of
                  less than 2^31 elements, see [push_ends], [pop_ends] and
                  [step_ends] *)

Arguments Ok {A} a.
Arguments Abort {A}.
Arguments Undefined {A}.
Arguments OutOfFuel {A}.

Definition bind {A B : Type} (m : outcome A) (k : A -> outcome B) : outcome B :=
  match m with
  | Ok a => k a
  | Abort => Abort
  | Undefined => Undefined
  | OutOfFuel => OutOfFuel
  end.

Notation "'let*' x ':=' m 'in' k" := (bind m (fun x => k))
  (at level 10, x name, m at level 100, k at level 200).

Definition assert (b : bool) : outcome unit := if b then Ok tt else Abort.

Notation "'check' b 'in' k" := (bind (assert b) (fun _ => k))
  (at level 10, b at level 100, k at level 200).

(** ** Machine integers *)

Definition wrap (z : Z) : Z := z mod 2 ^ 32.

(** ** Arrays *)

Section Arrays.
Context {A : Type}.

(** [l[i]] as an rvalue. *)
Definition rd (l : list A) (i : Z) : outcome A :=
  if (0 <=? i) && (i <? Z.of_nat (length l))
  then match l !! Z.to_nat i with
       | Some x => Ok x
       | None => Undefined
       end
  else Undefined.

(** [l[i] = x]. *)
Definition wr (l : list A) (i : Z) (x : A) : outcome (list A) :=
  if (0 <=? i) && (i <? Z.of_nat (length l))
  then Ok (<[Z.to_nat i := x]> l)
  else Undefined.
End Arrays.

(** ** Data *)

Inductive ptr : Type := null | addr (a : nat).

(** [typedef std :: pair<Element*, unsigned int> Node] *)
Abbreviation Node := (ptr * Z)%type.

Definition store : Type := nat -> Z.

Record Heap : Type := mkHeap {
  capacity : Z;
  elements : list Node;
  nb_elem : Z;
  id_to_pos : list (option Z);
  id_free : list (option Z)
}.

Definition set_elements (h : Heap) (l : list Node) : Heap :=
  mkHeap (capacity h) l (nb_elem h) (id_to_pos h) (id_free h).

Definition set_nb_elem (h : Heap) (n : Z) : Heap :=
  mkHeap (capacity h) (elements h) n (id_to_pos h) (id_free h).

(** [*p] *)
Definition deref (mem : store) (p : ptr) : outcome Z :=
  match p with
  | null => Undefined
  | addr a => Ok (mem a)
  end.

(** [*((elements[pos]).first)] *)
Definition value_at (mem : store) (h : Heap) (pos : Z) : outcome Z :=
  let* n := rd (elements h) pos in deref mem (fst n).

(** ** Private members *)

Definition lt (mem : store) (h : Heap) (pos_1 pos_2 : Z) : outcome bool :=
  check pos_1 <? nb_elem h in
  check pos_2 <? nb_elem h in
  let* a := value_at mem h pos_1 in
  let* b := value_at mem h pos_2 in
  Ok (a <? b).

Definition le (mem : store) (h : Heap) (pos_1 pos_2 : Z) : outcome bool :=
  check pos_1 <? nb_elem h in
  check pos_2 <? nb_elem h in
  let* a := value_at mem h pos_1 in
  let* b := value_at mem h pos_2 in
  Ok (a <=? b).

Definition get_pos_left_son (h : Heap) (i : Z) : outcome Z :=
  check i <? nb_elem h in Ok (wrap (2 * i + 1)).

Definition get_pos_right_son (h : Heap) (i : Z) : outcome Z :=
  check i <? nb_elem h in Ok (wrap (2 * i + 2)).

(** The assertion compares with [nb_elem-2] computed on [unsigned int]. *)
Definition get_pos_father (h : Heap) (i : Z) : outcome Z :=
  check i <? wrap (nb_elem h - 2) in Ok (wrap (i - 1) / 2).

(** [swap] exchanges the two nodes and nothing else. *)
Definition swap (h : Heap) (pos_a pos_b : Z) : outcome Heap :=
  check pos_a <=? nb_elem h in
  check pos_b <=? nb_elem h in
  let* e := rd (elements h) pos_b in
  let* x := rd (elements h) pos_a in
  let* l1 := wr (elements h) pos_b x in
  let* l2 := wr l1 pos_a e in
  Ok (set_elements h l2).

(** [operator>] of [std::pair]: lexicographic, on the pointer then on the
    id.  Pointers are ordered by address, [null] first. *)
Definition ptr_ltb (p q : ptr) : bool :=
  match p, q with
  | null, null => false
  | null, addr _ => true
  | addr _, null => false
  | addr a, addr b => (a <? b)%nat
  end.

Definition node_ltb (x y : Node) : bool :=
  ptr_ltb (fst x) (fst y) || (negb (ptr_ltb (fst y) (fst x)) && (snd x <? snd y)).

Definition node_gtb (x y : Node) : bool := node_ltb y x.

Definition is_empty (h : Heap) : bool := nb_elem h =? 0.

(** The [for] loop of [is_valid], [n] iterations left, at index [i]. *)
Fixpoint is_valid_from (h : Heap) (n : nat) (i : Z) : outcome bool :=
  match n with
  | O => Ok true
  | S n' =>
      let* x := rd (elements h) i in
      let* r := get_pos_right_son h i in
      let* y := rd (elements h) r in
      if node_gtb x y then Ok false
      else
        let* x' := rd (elements h) i in
        let* l := get_pos_left_son h i in
        let* z := rd (elements h) l in
        if node_gtb x' z then Ok false
        else is_valid_from h n' (i + 1)
  end.

Definition is_valid (h : Heap) : outcome bool :=
  if is_empty h || (nb_elem h =? 1) || (nb_elem h =? 2) then Ok true
  else is_valid_from h (Z.to_nat (wrap (nb_elem h - 2))) 0.

(** The [while] loop of [lower]; the result is the heap and the position
    the loop stopped at. *)
Fixpoint lower_loop (fuel : nat) (mem : store) (h : Heap) (pos : Z)
  : outcome (Heap * Z) :=
  match fuel with
  | O => OutOfFuel
  | S fuel' =>
      let* r := get_pos_right_son h pos in
      if negb (r <? nb_elem h) then Ok (h, pos) else
      let* l := get_pos_left_son h pos in
      if negb (l <? nb_elem h) then Ok (h, pos) else
      let* v := value_at mem h pos in
      let* l1 := get_pos_left_son h pos in
      let* vl := value_at mem h l1 in
      let* gt :=
        (if v >? vl then Ok true
         else
           let* v' := value_at mem h pos in
           let* r1 := get_pos_right_son h pos in
           let* vr := value_at mem h r1 in
           Ok (v' >? vr)) in
      if negb gt then Ok (h, pos) else
      let* l2 := get_pos_left_son h pos in
      let* r2 := get_pos_right_son h pos in
      let* c := le mem h l2 r2 in
      if c then
        let* l3 := get_pos_left_son h pos in
        let* h' := swap h pos l3 in
        let* pos' := get_pos_left_son h' pos in
        lower_loop fuel' mem h' pos'
      else
        let* r3 := get_pos_right_son h pos in
        let* h' := swap h pos r3 in
        let* pos' := get_pos_right_son h' pos in
        lower_loop fuel' mem h' pos'
  end.

Definition lower (mem : store) (h : Heap) (pos : Z) : outcome Heap :=
  let* hp := lower_loop (S (Z.to_nat (nb_elem h))) mem h pos in
  let h1 := fst hp in
  let pos1 := snd hp in
  let* l := get_pos_left_son h1 pos1 in
  if l =? wrap (nb_elem h1 - 1) then
    let* l' := get_pos_left_son h1 pos1 in
    let* c := lt mem h1 l' pos1 in
    if c then
      let* l'' := get_pos_left_son h1 pos1 in
      swap h1 pos1 l''
    else Ok h1
  else Ok h1.

(** The [while] loop of [raise]. *)
Fixpoint raise_loop (fuel : nat) (mem : store) (h : Heap) (pos : Z)
  : outcome Heap :=
  match fuel with
  | O => OutOfFuel
  | S fuel' =>
      if negb (pos >? 0) then Ok h else
      let* v := value_at mem h pos in
      let* f := get_pos_father h pos in
      let* vf := value_at mem h f in
      if negb (v <? vf) then Ok h else
      let* f1 := get_pos_father h pos in
      let* h' := swap h pos f1 in
      let* pos' := get_pos_father h' pos in
      raise_loop fuel' mem h' pos'
  end.

Definition raise (mem : store) (h : Heap) (pos : Z) : outcome Heap :=
  check pos <=? nb_elem h in
  raise_loop (S (Z.to_nat pos)) mem h pos.

(** ** Public members *)

(** The constructor: three arrays of [_capacity] cells, no element. *)
Definition Heap_Id (_capacity : Z) : outcome Heap :=
  let h := mkHeap _capacity
                  (replicate (Z.to_nat _capacity) (null, 0))
                  0
                  (replicate (Z.to_nat _capacity) None)
                  (replicate (Z.to_nat _capacity) None) in
  let* v := is_valid h in
  check v in Ok h.

(** [elements[i].first = p] and [elements[i].second = k] *)
Definition set_first (l : list Node) (i : Z) (p : ptr) : outcome (list Node) :=
  let* n := rd l i in wr l i (p, snd n).

Definition set_second (l : list Node) (i : Z) (k : Z) : outcome (list Node) :=
  let* n := rd l i in wr l i (fst n, k).

(** [push] is declared to return [unsigned int] but its body has no
    [return] statement: the caller receives no id, which the [None] of the
    result records.  Flowing off the end of such a function is itself
    undefined in C++; [Ok (None, h')] stands for "control reaches the end
    of the body with the heap [h']", so that what the body does to the heap
    can be stated, and a statement with [push ... = Ok ...] for hypothesis
    reads "if [push] returns".  [v] is the address of the caller's
    element. *)
Definition push (mem : store) (h : Heap) (v : nat) : outcome (option Z * Heap) :=
  if is_empty h then
    let* l1 := set_first (elements h) (nb_elem h) (addr v) in
    let* l2 := set_second l1 (nb_elem h) (nb_elem h) in
    let h1 := set_elements h l2 in
    Ok (None, set_nb_elem h1 (wrap (nb_elem h1 + 1)))
  else
    let* l1 := set_first (elements h) (nb_elem h) (addr v) in
    let* l2 := set_second l1 (nb_elem h) (nb_elem h) in
    let h1 := set_elements h l2 in
    let* h2 := raise mem h1 (nb_elem h1) in
    Ok (None, set_nb_elem h2 (wrap (nb_elem h2 + 1))).

(** [pop] returns [Element &]: the address of the element of the node that
    was at the root. *)
Definition pop (mem : store) (h : Heap) : outcome (nat * Heap) :=
  let* min := rd (elements h) 0 in
  let* last := rd (elements h) (wrap (nb_elem h - 1)) in
  let* l := wr (elements h) 0 last in
  let h1 := set_nb_elem (set_elements h l) (wrap (nb_elem h - 1)) in
  let* h2 := (if nb_elem h1 >? 2 then lower mem h1 0 else Ok h1) in
  match fst min with
  | null => Undefined
  | addr a => Ok (a, h2)
  end.

(** The body of [reposition] is empty. *)
Definition reposition (h : Heap) (id : Z) : outcome Heap := Ok h.

(** ** Runs of public calls *)

Inductive call : Type :=
| Push (v : nat)
| Pop
| Reposition (id : Z).

Definition step (mem : store) (h : Heap) (c : call) : outcome Heap :=
  match c with
  | Push v => let* r := push mem h v in Ok (snd r)
  | Pop => let* r := pop mem h in Ok (snd r)
  | Reposition id => reposition h id
  end.

Fixpoint run (mem : store) (h : Heap) (cs : list call) : outcome Heap :=
  match cs with
  | [] => Ok h
  | c :: cs' => let* h' := step mem h c in run mem h' cs'
  end.

(** Pushing the elements at addresses [vs], in order. *)
Definition populate (mem : store) (h : Heap) (vs : list nat) : outcome Heap :=
  run mem h (map Push vs).

(** [n] calls of [pop]; the addresses returned, in order, and the heap left. *)
Fixpoint pop_n (mem : store) (n : nat) (h : Heap) : outcome (list nat * Heap) :=
  match n with
  | O => Ok ([], h)
  | S n' =>
      let* r := pop mem h in
      let* rs := pop_n mem n' (snd r) in
      Ok (fst r :: fst rs, snd rs)
  end.

(** ** Friends *)

(** What [operator<<] writes on the stream, one item per [<<]: the text
    ["[ "], an element (written by the [operator<<] of [Element]), the text
    [" , "] and the text [" ]"].  The stream is the list of the items
    written so far. *)
Inductive item : Type :=
| open_bracket
| element (v : Z)
| comma
| close_bracket.

(** The [for] loop of [operator<<], [n] iterations left, at index [i].  The
    index is an [int]: [i++] past [2^31-1] is undefined behaviour. *)
Fixpoint print_from (mem : store) (h : Heap) (n : nat) (i : Z) (out : list item)
  : outcome (list item) :=
  match n with
  | O => Ok out
  | S n' =>
      let* v := value_at mem h i in
      let out1 := out ++ [element v; comma] in
      if i + 1 >? 2 ^ 31 - 1 then Undefined
      else print_from mem h n' (i + 1) out1
  end.

(** [operator<<]: the test [i<h.nb_elem-1] is made on [unsigned int], so the
    loop makes [wrap (nb_elem - 1)] iterations. *)
Definition print (mem : store) (out : list item) (h : Heap) : outcome (list item) :=
  let out1 := out ++ [open_bracket] in
  let* out2 := print_from mem h (Z.to_nat (wrap (nb_elem h - 1))) 0 out1 in
  let* v := value_at mem h (wrap (nb_elem h - 1)) in
  Ok (out2 ++ [element v; close_bracket]).

(** * Vocabulary of the properties *)

(** [frame h h']: the capacity, the two id tables and the size of the node
    array are the same in [h'] as in [h]. *)
Definition frame (h h' : Heap) : Prop :=
  capacity h' = capacity h /\ id_to_pos h' = id_to_pos h /\
  id_free h' = id_free h /\ length (elements h') = length (elements h).

(** The live slots are the first [nb_elem] ones; in a well-formed heap they
    lie inside the array and each points to an element.  The bound on
    [nb_elem] keeps the sons' indices [2*i+1] and [2*i+2] of a live slot
    from wrapping around. *)
Definition well_formed (h : Heap) : Prop :=
  0 <= nb_elem h <= Z.of_nat (length (elements h)) /\
  nb_elem h < 2 ^ 31 /\
  forall i, 0 <= i < nb_elem h ->
            exists a k, elements h !! Z.to_nat i = Some (addr a, k).

(** The value of the element slot [i] points to (0 when there is none). *)
Definition val (mem : store) (h : Heap) (i : Z) : Z :=
  match elements h !! Z.to_nat i with
  | Some (addr a, _) => mem a
  | _ => 0
  end.

(** The heap with the nodes of slots [a] and [b] exchanged. *)
Definition exchanged (h : Heap) (a b : Z) : Heap :=
  match elements h !! Z.to_nat a, elements h !! Z.to_nat b with
  | Some ea, Some eb =>
      set_elements h (<[Z.to_nat a := eb]> (<[Z.to_nat b := ea]> (elements h)))
  | _, _ => h
  end.

(** An executable test of well-formedness. *)
Definition points_somewhere (n : Node) : bool :=
  match fst n with
  | addr _ => true
  | null => false
  end.

Definition well_formedb (h : Heap) : bool :=
  (0 <=? nb_elem h) && (nb_elem h <=? Z.of_nat (length (elements h))) &&
  (nb_elem h <? 2 ^ 31) &&
  forallb points_somewhere (take (Z.to_nat (nb_elem h)) (elements h)).

(** A caller's memory for the examples: the elements at addresses 0 to 3
    are worth 5, 3, 8 and 1. *)
Definition mem0 : store := fun a => nth a [5; 3; 8; 1] 0.

(** A four-element heap whose root (worth 8) is out of place. *)
Definition heap4 : Heap :=
  mkHeap 4 [(addr 2, 0); (addr 1, 1); (addr 0, 2); (addr 3, 3)] 4
         [None; None; None; None] [None; None; None; None].

(** The array is no longer than an [unsigned int] can count. *)
Definition fits (h : Heap) : Prop := Z.of_nat (length (elements h)) < 2 ^ 32.

(** Heap order: no live slot but the root is worth less than its father,
    the slot [(i-1)/2]. *)
Definition heap_ordered (mem : store) (h : Heap) : Prop :=
  forall i, 0 < i < nb_elem h -> val mem h ((i - 1) / 2) <= val mem h i.

(** The heaps a run builds from a new heap: well-formed, of at most two
    elements (the third [push] stops on an assertion), in order. *)
Definition small (mem : store) (h : Heap) : Prop :=
  well_formed h /\ fits h /\ nb_elem h <= 2 /\
  (nb_elem h = 2 -> val mem h 0 <= val mem h 1).

(** A heap of the elements worth 1 and 5, with two free slots. *)
Definition heap_1_5 : Heap :=
  mkHeap 4 [(addr 3, 1); (addr 0, 0); (null, 0); (null, 0)] 2
         [None; None; None; None] [None; None; None; None].

(** A heap of the elements worth 1, 3 and 5, in order. *)
Definition heap_1_3_5 : Heap :=
  mkHeap 4 [(addr 3, 0); (addr 1, 1); (addr 0, 2); (null, 0)] 3
         [None; None; None; None] [None; None; None; None].

(** [n] calls of [pop] succeed, and each returns the element of slot 0,
    which no live element is worth less than. *)
Fixpoint pops_min (mem : store) (n : nat) (h : Heap) : Prop :=
  match n with
  | O => True
  | S n' =>
      exists a k h',
        elements h !! 0%nat = Some (addr a, k) /\
        (forall i, 0 <= i < nb_elem h -> mem a <= val mem h i) /\
        pop mem h = Ok (a, h') /\ pops_min mem n' h'
  end.

(** Index consistency: the id held by a live slot is mapped back to that
    slot by [id_to_pos]. *)
Definition index_consistent (h : Heap) : Prop :=
  forall i p k,
    0 <= i < nb_elem h ->
    elements h !! Z.to_nat i = Some (p, k) ->
    id_to_pos h !! Z.to_nat k = Some (Some i).

(** Two elements worth 5 and 10, and the same after the second has been
    set to 0 by its owner. *)
Definition mem_5_10 : store := fun a => nth a [5; 10] 0.

Definition mem_5_0 : store := fun a => nth a [5; 0] 0.

(** A computation that does not run out of fuel. *)
Definition ends {A : Type} (m : outcome A) : Prop := m <> OutOfFuel.

(** The nodes of the live slots, in array order, and what their elements
    are worth. *)
Definition live_nodes (h : Heap) : list Node :=
  take (Z.to_nat (nb_elem h)) (elements h).

Definition node_value (mem : store) (n : Node) : Z :=
  match fst n with
  | addr a => mem a
  | null => 0
  end.

Definition live_values (mem : store) (h : Heap) : list Z :=
  map (node_value mem) (live_nodes h).


(** Heap order but for the slot [pos] and its sons: every live slot whose
    father is not [pos] is worth at least its father, and the sons of [pos]
    are worth at least the father of [pos].  It is what [lower] starts
    from. *)
Definition ordered_but_below (mem : store) (h : Heap) (pos : Z) : Prop :=
  (forall i, 0 < i < nb_elem h -> (i - 1) / 2 <> pos ->
             val mem h ((i - 1) / 2) <= val mem h i) /\
  (forall c, 0 < c < nb_elem h -> (c - 1) / 2 = pos -> 0 < pos ->
             val mem h ((pos - 1) / 2) <= val mem h c).

(** The items [operator<<] writes for the values [vs]: the elements, with
    [" , "] between two of them. *)
Fixpoint shown (vs : list Z) : list item :=
  match vs with
  | [] => []
  | [v] => [element v]
  | v :: vs' => element v :: comma :: shown vs'
  end.

(** What [is_valid] requires of the slot [i]: the node is not greater, as a
    pair, than the nodes of the slots [2*i+2] and [2*i+1]. *)
Definition pair_ordered_at (h : Heap) (i : Z) : Prop :=
  exists x y z,
    elements h !! Z.to_nat i = Some x /\
    elements h !! Z.to_nat (2 * i + 2) = Some y /\
    elements h !! Z.to_nat (2 * i + 1) = Some z /\
    node_gtb x y = false /\ node_gtb x z = false.


Definition heap_8_1_5_3 : Heap :=
  mkHeap 4 [(addr 2, 0); (addr 3, 1); (addr 0, 2); (addr 1, 3)] 4
         [None; None; None; None] [None; None; None; None].

(** A heap of the elements worth 1, 3, 5 and 8, in order. *)
Definition heap_1_3_5_8 : Heap :=
  mkHeap 4 [(addr 3, 0); (addr 1, 1); (addr 0, 2); (addr 2, 3)] 4
         [None; None; None; None] [None; None; None; None].

(** * Properties *)

(** ** Outcomes, arrays and machine arithmetic *)

Lemma bind_Ok {A B : Type} (m : outcome A) (k : A -> outcome B) (b : B) :
  bind m k = Ok b <-> exists a, m = Ok a /\ k a = Ok b.
Proof.
  destruct m; simpl; split; try (intros (a0 & Ha & Hk)); try discriminate; eauto.
  congruence.
Qed.

Lemma assert_Ok (b : bool) (u : unit) : assert b = Ok u <-> b = true.
Proof. destruct b, u; simpl; split; congruence. Qed.

Lemma assert_true (b : bool) : b = true -> assert b = Ok tt.
Proof. intros ->. reflexivity. Qed.

Lemma wrap_small (z : Z) : 0 <= z < 2 ^ 32 -> wrap z = z.
Proof. intros H. unfold wrap. apply Z.mod_small. exact H. Qed.

Lemma wrap_range (z : Z) : 0 <= wrap z < 2 ^ 32.
Proof. unfold wrap. apply Z.mod_pos_bound. lia. Qed.

Lemma rd_Ok {A : Type} (l : list A) (i : Z) (x : A) :
  rd l i = Ok x <->
  0 <= i < Z.of_nat (length l) /\ l !! Z.to_nat i = Some x.
Proof.
  unfold rd.
  destruct (0 <=? i) eqn:E1; destruct (i <? Z.of_nat (length l)) eqn:E2; simpl;
    try (split; [discriminate | intros [? _]; lia]).
  destruct (l !! Z.to_nat i) eqn:E3; split.
  - intros [= ->]. split; [lia | reflexivity].
  - intros [_ [= ->]]. reflexivity.
  - discriminate.
  - intros [_ [=]].
Qed.

Lemma rd_lookup {A : Type} (l : list A) (i : Z) (x : A) :
  0 <= i -> l !! Z.to_nat i = Some x -> rd l i = Ok x.
Proof.
  intros Hi Hx. apply rd_Ok. split; [|exact Hx].
  apply lookup_lt_Some in Hx. lia.
Qed.

Lemma rd_out {A : Type} (l : list A) (i : Z) :
  Z.of_nat (length l) <= i -> rd l i = Undefined.
Proof.
  intros H. unfold rd.
  destruct (i <? Z.of_nat (length l)) eqn:E; [lia|].
  rewrite andb_false_r. reflexivity.
Qed.

Lemma wr_Ok {A : Type} (l l' : list A) (i : Z) (x : A) :
  wr l i x = Ok l' <->
  0 <= i < Z.of_nat (length l) /\ l' = <[Z.to_nat i := x]> l.
Proof.
  unfold wr.
  destruct (0 <=? i) eqn:E1; destruct (i <? Z.of_nat (length l)) eqn:E2; simpl;
    try (split; [discriminate | intros [? _]; lia]).
  split.
  - intros [= <-]. split; [lia | reflexivity].
  - intros [_ ->]. reflexivity.
Qed.

Lemma wr_in {A : Type} (l : list A) (i : Z) (x : A) :
  0 <= i < Z.of_nat (length l) -> wr l i x = Ok (<[Z.to_nat i := x]> l).
Proof. intros H. apply wr_Ok. split; [exact H | reflexivity]. Qed.

(** Turning [... = Ok _] hypotheses about sequenced code into their parts. *)
Ltac ok_inv H :=
  repeat match type of H with
         | bind (assert _) _ = Ok _ =>
             let u := fresh "u" in
             let Hc := fresh "Hc" in
             apply bind_Ok in H as (u & Hc & H); apply assert_Ok in Hc
         | bind _ _ = Ok _ =>
             let x := fresh "x" in
             let Hx := fresh "Hx" in
             apply bind_Ok in H as (x & Hx & H)
         end.

(** ** What [swap] does *)

Lemma swap_inv (h h' : Heap) (a b : Z) :
  swap h a b = Ok h' ->
  exists ea eb,
    0 <= a <= nb_elem h /\ 0 <= b <= nb_elem h /\
    elements h !! Z.to_nat a = Some ea /\
    elements h !! Z.to_nat b = Some eb /\
    h' = set_elements h (<[Z.to_nat a := eb]> (<[Z.to_nat b := ea]> (elements h))).
Proof.
  unfold swap. intros H. ok_inv H.
  apply rd_Ok in Hx as [Hb Hx]. apply rd_Ok in Hx0 as [Ha Hx0].
  apply wr_Ok in Hx1 as [_ ->]. apply wr_Ok in Hx2 as [_ ->].
  injection H as <-.
  exists x0, x. repeat split; try lia; assumption.
Qed.

Lemma swap_eq (h : Heap) (a b : Z) (ea eb : Node) :
  0 <= a <= nb_elem h -> 0 <= b <= nb_elem h ->
  elements h !! Z.to_nat a = Some ea ->
  elements h !! Z.to_nat b = Some eb ->
  swap h a b =
    Ok (set_elements h (<[Z.to_nat a := eb]> (<[Z.to_nat b := ea]> (elements h)))).
Proof.
  intros Ha Hb Hea Heb. unfold swap.
  rewrite (assert_true (a <=? nb_elem h)) by lia. simpl.
  rewrite (assert_true (b <=? nb_elem h)) by lia. simpl.
  rewrite (rd_lookup _ _ _ (proj1 Hb) Heb). simpl.
  rewrite (rd_lookup _ _ _ (proj1 Ha) Hea). simpl.
  pose proof (lookup_lt_Some _ _ _ Hea) as La.
  pose proof (lookup_lt_Some _ _ _ Heb) as Lb.
  rewrite wr_in by lia. simpl.
  rewrite wr_in by (rewrite length_insert; lia). reflexivity.
Qed.

(** [swap] leaves [id_to_pos] alone: it is the whole of the class's handling
    of positions, and it writes [elements] only. *)
Lemma swap_frame (h h' : Heap) (a b : Z) :
  swap h a b = Ok h' ->
  capacity h' = capacity h /\ nb_elem h' = nb_elem h /\
  id_to_pos h' = id_to_pos h /\ id_free h' = id_free h /\
  length (elements h') = length (elements h).
Proof.
  intros H. apply swap_inv in H as (ea & eb & _ & _ & _ & _ & ->).
  simpl. rewrite !length_insert. auto.
Qed.

(** ** What no member touches *)

Lemma frame_refl (h : Heap) : frame h h.
Proof. unfold frame. auto. Qed.

Lemma frame_trans (h1 h2 h3 : Heap) : frame h1 h2 -> frame h2 h3 -> frame h1 h3.
Proof. unfold frame. intros (?&?&?&?) (?&?&?&?). repeat split; congruence. Qed.

Lemma frame_set_nb_elem (h : Heap) (n : Z) : frame h (set_nb_elem h n).
Proof. unfold frame. simpl. auto. Qed.

Lemma swap_keeps (h h' : Heap) (a b : Z) :
  swap h a b = Ok h' -> frame h h' /\ nb_elem h' = nb_elem h.
Proof.
  intros H. apply swap_frame in H as (?&?&?&?&?). unfold frame. auto.
Qed.

Ltac ok_if H :=
  match type of H with
  | (if ?c then _ else _) = _ => destruct c eqn:?; simpl in H
  end.

Ltac ok_same H :=
  first [ injection H as <- <- | injection H as <- ];
  split; [apply frame_refl | reflexivity].

Ltac ok_swap_keeps IH H :=
  match goal with
  | Hs : swap _ _ _ = Ok _ |- _ =>
      let F1 := fresh "F" in
      let N1 := fresh "N" in
      let F2 := fresh "F" in
      let N2 := fresh "N" in
      apply swap_keeps in Hs as [F1 N1]; apply IH in H as [F2 N2];
      split; [eapply frame_trans; eassumption | congruence]
  end.

Lemma raise_loop_keeps (fuel : nat) (mem : store) :
  forall (h h' : Heap) (pos : Z),
    raise_loop fuel mem h pos = Ok h' -> frame h h' /\ nb_elem h' = nb_elem h.
Proof.
  induction fuel as [|fuel IH]; intros h h' pos H; simpl in H; [discriminate|].
  ok_if H; [ok_same H|]. ok_inv H.
  ok_if H; [ok_same H|]. ok_inv H.
  ok_swap_keeps IH H.
Qed.

Lemma raise_keeps (mem : store) (h h' : Heap) (pos : Z) :
  raise mem h pos = Ok h' -> frame h h' /\ nb_elem h' = nb_elem h.
Proof.
  unfold raise. intros H. ok_inv H. eapply raise_loop_keeps; eassumption.
Qed.

Lemma lower_loop_keeps (fuel : nat) (mem : store) :
  forall (h h' : Heap) (pos pos' : Z),
    lower_loop fuel mem h pos = Ok (h', pos') ->
    frame h h' /\ nb_elem h' = nb_elem h.
Proof.
  induction fuel as [|fuel IH]; intros h h' pos pos' H; simpl in H; [discriminate|].
  ok_inv H. ok_if H; [ok_same H|].
  ok_inv H. ok_if H; [ok_same H|].
  ok_inv H. ok_if H; [ok_same H|].
  ok_inv H. ok_if H; ok_inv H; ok_swap_keeps IH H.
Qed.

Lemma lower_keeps (mem : store) (h h' : Heap) (pos : Z) :
  lower mem h pos = Ok h' -> frame h h' /\ nb_elem h' = nb_elem h.
Proof.
  unfold lower. intros H. ok_inv H.
  match goal with x : (Heap * Z)%type |- _ => destruct x as [h1 pos1] end.
  cbn [fst snd] in *.
  match goal with
  | Hl : lower_loop _ _ _ _ = Ok _ |- _ =>
      apply lower_loop_keeps in Hl as [F1 N1]
  end.
  ok_if H; [|injection H as <-; auto].
  ok_inv H. ok_if H; [|injection H as <-; auto].
  ok_inv H. apply swap_keeps in H as [F2 N2].
  split; [eapply frame_trans; eassumption | congruence].
Qed.

Lemma set_first_Ok (l l' : list Node) (i : Z) (p : ptr) :
  set_first l i p = Ok l' ->
  exists n, 0 <= i < Z.of_nat (length l) /\ l !! Z.to_nat i = Some n /\
            l' = <[Z.to_nat i := (p, snd n)]> l.
Proof.
  unfold set_first. intros H. ok_inv H.
  apply rd_Ok in Hx as [Hi Hx]. apply wr_Ok in H as [_ ->]. eauto.
Qed.

Lemma set_second_Ok (l l' : list Node) (i : Z) (k : Z) :
  set_second l i k = Ok l' ->
  exists n, 0 <= i < Z.of_nat (length l) /\ l !! Z.to_nat i = Some n /\
            l' = <[Z.to_nat i := (fst n, k)]> l.
Proof.
  unfold set_second. intros H. ok_inv H.
  apply rd_Ok in Hx as [Hi Hx]. apply wr_Ok in H as [_ ->]. eauto.
Qed.

(** The two assignments of [push] to the fields of [elements[nb_elem]]. *)
Lemma push_store_Ok (l l1 l2 : list Node) (i : Z) (p : ptr) (k : Z) :
  set_first l i p = Ok l1 -> set_second l1 i k = Ok l2 ->
  0 <= i < Z.of_nat (length l) /\ l2 = <[Z.to_nat i := (p, k)]> l.
Proof.
  intros H1 H2.
  apply set_first_Ok in H1 as (n & Hi & Hn & ->).
  apply set_second_Ok in H2 as (n' & _ & Hn' & ->).
  split; [exact Hi|].
  rewrite list_lookup_insert_eq in Hn' by lia. injection Hn' as <-.
  simpl. apply list_insert_insert_eq.
Qed.

Lemma push_store_in (l : list Node) (i : Z) (p : ptr) (k : Z) :
  0 <= i < Z.of_nat (length l) ->
  exists l1, set_first l i p = Ok l1 /\
             set_second l1 i k = Ok (<[Z.to_nat i := (p, k)]> l).
Proof.
  intros Hi.
  destruct (lookup_lt_is_Some_2 l (Z.to_nat i)) as [n Hn]; [lia|].
  exists (<[Z.to_nat i := (p, snd n)]> l). split.
  - unfold set_first. rewrite (rd_lookup _ _ _ (proj1 Hi) Hn). simpl.
    apply wr_in. exact Hi.
  - unfold set_second.
    rewrite (rd_lookup _ _ (p, snd n)); [|lia|apply list_lookup_insert_eq; lia].
    simpl. rewrite wr_in by (rewrite length_insert; lia).
    rewrite list_insert_insert_eq. reflexivity.
Qed.

Lemma push_keeps (mem : store) (h h' : Heap) (v : nat) (r : option Z) :
  push mem h v = Ok (r, h') ->
  frame h h' /\ nb_elem h' = wrap (nb_elem h + 1) /\ r = None /\
  0 <= nb_elem h < Z.of_nat (length (elements h)).
Proof.
  unfold push. intros H.
  destruct (is_empty h); ok_inv H.
  - destruct (push_store_Ok _ _ _ _ _ _ Hx Hx0) as [Hi ->].
    injection H as <- <-. simpl. unfold frame. simpl.
    rewrite length_insert. auto.
  - destruct (push_store_Ok _ _ _ _ _ _ Hx Hx0) as [Hi ->].
    apply raise_keeps in Hx1 as [(F1 & F2 & F3 & F4) N].
    injection H as <- <-. simpl in *. unfold frame. simpl.
    rewrite length_insert in F4. rewrite N. auto.
Qed.

Lemma pop_keeps (mem : store) (h h' : Heap) (a : nat) :
  pop mem h = Ok (a, h') ->
  frame h h' /\ nb_elem h' = wrap (nb_elem h - 1).
Proof.
  unfold pop. intros H. ok_inv H.
  apply wr_Ok in Hx1 as [Hi ->].
  destruct (fst x); [discriminate|]. injection H as <- <-.
  simpl in Hx2.
  match type of Hx2 with (if ?c then _ else _) = _ => destruct c end.
  - apply lower_keeps in Hx2 as [(F1 & F2 & F3 & F4) N]. simpl in *.
    unfold frame. rewrite length_insert in F4. auto.
  - injection Hx2 as <-. unfold frame. simpl. rewrite length_insert. auto.
Qed.

(** No public call assigns a cell of [id_to_pos] or of [id_free]. *)
Lemma step_keeps (mem : store) (h h' : Heap) (c : call) :
  step mem h c = Ok h' -> frame h h'.
Proof.
  destruct c; simpl; intros H.
  - ok_inv H. destruct x as [r h1]. injection H as <-.
    apply push_keeps in Hx. tauto.
  - ok_inv H. destruct x as [r h1]. injection H as <-.
    apply pop_keeps in Hx. tauto.
  - injection H as <-. apply frame_refl.
Qed.

Lemma run_keeps (mem : store) (cs : list call) :
  forall h h', run mem h cs = Ok h' -> frame h h'.
Proof.
  induction cs as [|c cs IH]; simpl; intros h h' H.
  - injection H as <-. apply frame_refl.
  - ok_inv H. eapply frame_trans; [eapply step_keeps|apply IH]; eassumption.
Qed.

(** ** Well-formed heaps *)

Section Live.
Variable mem : store.
Variable h : Heap.
Hypothesis WF : well_formed h.

Lemma value_at_live (i : Z) :
  0 <= i < nb_elem h -> value_at mem h i = Ok (val mem h i).
Proof.
  intros Hi. destruct WF as (_ & _ & L). destruct (L i Hi) as (a & k & E).
  unfold value_at, val. rewrite (rd_lookup _ _ _ (proj1 Hi) E), E.
  reflexivity.
Qed.

Lemma get_pos_left_son_live (i : Z) :
  0 <= i < nb_elem h -> get_pos_left_son h i = Ok (2 * i + 1).
Proof.
  intros Hi. destruct WF as (_ & B & _). unfold get_pos_left_son.
  rewrite assert_true by lia. simpl. rewrite wrap_small by lia. reflexivity.
Qed.

Lemma get_pos_right_son_live (i : Z) :
  0 <= i < nb_elem h -> get_pos_right_son h i = Ok (2 * i + 2).
Proof.
  intros Hi. destruct WF as (_ & B & _). unfold get_pos_right_son.
  rewrite assert_true by lia. simpl. rewrite wrap_small by lia. reflexivity.
Qed.

Lemma lt_live (i j : Z) :
  0 <= i < nb_elem h -> 0 <= j < nb_elem h ->
  lt mem h i j = Ok (val mem h i <? val mem h j).
Proof.
  intros Hi Hj. unfold lt.
  rewrite !assert_true by lia. simpl.
  rewrite !value_at_live by assumption. reflexivity.
Qed.

Lemma le_live (i j : Z) :
  0 <= i < nb_elem h -> 0 <= j < nb_elem h ->
  le mem h i j = Ok (val mem h i <=? val mem h j).
Proof.
  intros Hi Hj. unfold le.
  rewrite !assert_true by lia. simpl.
  rewrite !value_at_live by assumption. reflexivity.
Qed.

Lemma swap_live (a b : Z) :
  0 <= a < nb_elem h -> 0 <= b < nb_elem h ->
  swap h a b = Ok (exchanged h a b).
Proof.
  intros Ha Hb. destruct WF as (_ & _ & L).
  destruct (L a Ha) as (pa & ka & Ea). destruct (L b Hb) as (pb & kb & Eb).
  unfold exchanged. rewrite Ea, Eb.
  apply swap_eq; try lia; assumption.
Qed.

Lemma exchanged_nb_elem (a b : Z) : nb_elem (exchanged h a b) = nb_elem h.
Proof.
  unfold exchanged.
  destruct (elements h !! Z.to_nat a), (elements h !! Z.to_nat b); reflexivity.
Qed.

Lemma exchanged_well_formed (a b : Z) :
  0 <= a < nb_elem h -> 0 <= b < nb_elem h ->
  well_formed (exchanged h a b).
Proof.
  intros Ha Hb. destruct WF as (B1 & B2 & L).
  destruct (L a Ha) as (pa & ka & Ea). destruct (L b Hb) as (pb & kb & Eb).
  unfold exchanged. rewrite Ea, Eb. unfold well_formed. simpl.
  rewrite !length_insert. repeat split; try lia.
  intros i Hi.
  destruct (decide (Z.to_nat i = Z.to_nat a)) as [->|Na].
  { rewrite list_lookup_insert_eq by (rewrite length_insert; lia). eauto. }
  rewrite list_lookup_insert_ne by congruence.
  destruct (decide (Z.to_nat i = Z.to_nat b)) as [->|Nb].
  { rewrite list_lookup_insert_eq by lia. eauto. }
  rewrite list_lookup_insert_ne by congruence. apply L. exact Hi.
Qed.
End Live.

(** ** The loop of [lower] on a well-formed heap *)

Section Lower.
Variable mem : store.

(** One round: with both sons live and one of them smaller than the
    node, the node goes down to the left son when [left <= right], to the
    right son otherwise; in every other case the loop is left. *)
Lemma lower_loop_round (fuel : nat) (h : Heap) (pos : Z) :
  well_formed h -> 0 <= pos < nb_elem h ->
  lower_loop (S fuel) mem h pos =
    if (2 * pos + 2 <? nb_elem h) &&
       ((val mem h pos >? val mem h (2 * pos + 1)) ||
        (val mem h pos >? val mem h (2 * pos + 2)))
    then
      if val mem h (2 * pos + 1) <=? val mem h (2 * pos + 2)
      then lower_loop fuel mem (exchanged h pos (2 * pos + 1)) (2 * pos + 1)
      else lower_loop fuel mem (exchanged h pos (2 * pos + 2)) (2 * pos + 2)
    else Ok (h, pos).
Proof.
  intros WF Hp. cbn [lower_loop].
  rewrite !(get_pos_right_son_live h WF pos Hp).
  rewrite !(get_pos_left_son_live h WF pos Hp). cbn [bind].
  destruct (2 * pos + 2 <? nb_elem h) eqn:Er; cbn [negb andb]; [|reflexivity].
  assert (Hl : 0 <= 2 * pos + 1 < nb_elem h) by lia.
  assert (Hr : 0 <= 2 * pos + 2 < nb_elem h) by lia.
  replace (2 * pos + 1 <? nb_elem h) with true by lia. cbn [negb].
  rewrite !(value_at_live mem h WF) by assumption. cbn [bind].
  rewrite (le_live mem h WF) by assumption.
  assert (G : (if val mem h pos >? val mem h (2 * pos + 1)
               then Ok true
               else Ok (val mem h pos >? val mem h (2 * pos + 2))) =
              Ok ((val mem h pos >? val mem h (2 * pos + 1)) ||
                  (val mem h pos >? val mem h (2 * pos + 2)))).
  { destruct (val mem h pos >? val mem h (2 * pos + 1)); reflexivity. }
  rewrite G. cbn [bind].
  destruct ((val mem h pos >? val mem h (2 * pos + 1)) ||
            (val mem h pos >? val mem h (2 * pos + 2))); cbn [negb]; [|reflexivity].
  rewrite !(swap_live h WF) by assumption. cbn [bind].
  destruct (val mem h (2 * pos + 1) <=? val mem h (2 * pos + 2)); cbn [bind].
  - unfold get_pos_left_son. rewrite exchanged_nb_elem.
    rewrite assert_true by lia. cbn [bind]. rewrite wrap_small by
      (destruct WF as (_ & ? & _); lia). reflexivity.
  - unfold get_pos_right_son. rewrite exchanged_nb_elem.
    rewrite assert_true by lia. cbn [bind]. rewrite wrap_small by
      (destruct WF as (_ & ? & _); lia). reflexivity.
Qed.

(** The loop ends within the fuel [lower] gives it, on a well-formed heap
    and at a live slot with no son, or with sons that are not smaller. *)
Lemma lower_loop_fuel (fuel : nat) :
  forall (h : Heap) (pos : Z),
    well_formed h -> 0 <= pos < nb_elem h ->
    (Z.to_nat (nb_elem h - pos) <= fuel)%nat ->
    exists h1 pos1,
      lower_loop fuel mem h pos = Ok (h1, pos1) /\
      well_formed h1 /\ nb_elem h1 = nb_elem h /\ pos <= pos1 < nb_elem h.
Proof.
  induction fuel as [|fuel IH]; intros h pos WF Hp Hf; [lia|].
  rewrite lower_loop_round by assumption.
  destruct (2 * pos + 2 <? nb_elem h) eqn:Er; cbn [andb].
  2: { exists h, pos. split; [reflexivity|]. split; [assumption|]. lia. }
  destruct ((val mem h pos >? val mem h (2 * pos + 1)) ||
            (val mem h pos >? val mem h (2 * pos + 2))).
  2: { exists h, pos. split; [reflexivity|]. split; [assumption|]. lia. }
  destruct (val mem h (2 * pos + 1) <=? val mem h (2 * pos + 2)).
  - destruct (IH (exchanged h pos (2 * pos + 1)) (2 * pos + 1))
      as (h1 & pos1 & E & W1 & N1 & P1).
    + apply exchanged_well_formed; [assumption|lia|lia].
    + rewrite exchanged_nb_elem. lia.
    + rewrite exchanged_nb_elem. lia.
    + rewrite exchanged_nb_elem in *. exists h1, pos1.
      split; [assumption|]. split; [assumption|]. lia.
  - destruct (IH (exchanged h pos (2 * pos + 2)) (2 * pos + 2))
      as (h1 & pos1 & E & W1 & N1 & P1).
    + apply exchanged_well_formed; [assumption|lia|lia].
    + rewrite exchanged_nb_elem. lia.
    + rewrite exchanged_nb_elem. lia.
    + rewrite exchanged_nb_elem in *. exists h1, pos1.
      split; [assumption|]. split; [assumption|]. lia.
Qed.


(** After the loop, [lower] looks at a lone left son. *)
Lemma lower_unfold (h : Heap) (pos : Z) :
  well_formed h -> 0 <= pos < nb_elem h ->
  exists h1 pos1,
    lower_loop (S (Z.to_nat (nb_elem h))) mem h pos = Ok (h1, pos1) /\
    well_formed h1 /\ nb_elem h1 = nb_elem h /\ pos <= pos1 < nb_elem h /\
    lower mem h pos =
      if (2 * pos1 + 1 =? nb_elem h1 - 1) &&
         (val mem h1 (2 * pos1 + 1) <? val mem h1 pos1)
      then Ok (exchanged h1 pos1 (2 * pos1 + 1))
      else Ok h1.
Proof.
  intros WF Hp.
  destruct (lower_loop_fuel (S (Z.to_nat (nb_elem h))) h pos WF Hp)
    as (h1 & pos1 & E & W1 & N1 & P1); [lia|].
  exists h1, pos1. split; [assumption|]. split; [assumption|].
  split; [assumption|]. split; [lia|].
  unfold lower. rewrite E. cbn [bind fst snd].
  assert (P1' : 0 <= pos1 < nb_elem h1) by lia.
  rewrite !(get_pos_left_son_live h1 W1 pos1 P1'). cbn [bind].
  rewrite (wrap_small (nb_elem h1 - 1)) by (destruct W1 as (_ & ? & _); lia).
  destruct (2 * pos1 + 1 =? nb_elem h1 - 1) eqn:El; cbn [andb]; [|reflexivity].
  rewrite (lt_live mem h1 W1) by lia. cbn [bind].
  destruct (val mem h1 (2 * pos1 + 1) <? val mem h1 pos1); [|reflexivity].
  apply (swap_live h1 W1); lia.
Qed.

(** [lower] returns, on a well-formed heap and a live slot. *)
Lemma lower_total (h : Heap) (pos : Z) :
  well_formed h -> 0 <= pos < nb_elem h ->
  exists h', lower mem h pos = Ok h' /\ well_formed h' /\
             nb_elem h' = nb_elem h.
Proof.
  intros WF Hp.
  destruct (lower_unfold h pos WF Hp) as (h1 & pos1 & _ & W1 & N1 & P1 & ->).
  destruct ((2 * pos1 + 1 =? nb_elem h1 - 1) &&
            (val mem h1 (2 * pos1 + 1) <? val mem h1 pos1)) eqn:E.
  - exists (exchanged h1 pos1 (2 * pos1 + 1)). split; [reflexivity|].
    apply andb_prop in E as [E _].
    split; [apply exchanged_well_formed; [assumption|lia|lia]
           |rewrite exchanged_nb_elem; exact N1].
  - exists h1. auto.
Qed.
End Lower.

Lemma well_formedb_sound (h : Heap) : well_formedb h = true -> well_formed h.
Proof.
  unfold well_formedb. intros H.
  apply andb_prop in H as [H H4]. apply andb_prop in H as [H H3].
  apply andb_prop in H as [H1 H2].
  split; [lia|]. split; [lia|].
  intros i Hi.
  destruct (lookup_lt_is_Some_2 (elements h) (Z.to_nat i)) as [[p k] E]; [lia|].
  rewrite forallb_forall in H4.
  assert (I : In (p, k) (take (Z.to_nat (nb_elem h)) (elements h))).
  { apply list_elem_of_In. apply list_elem_of_lookup. exists (Z.to_nat i).
    rewrite lookup_take_lt by lia. exact E. }
  apply H4 in I. destruct p; [discriminate|]. rewrite E. eauto.
Qed.

(** ** C9: the step policy of [lower] *)



(** ** [push] and [pop], call by call *)

Lemma Heap_Id_eq (_capacity : Z) :
  Heap_Id _capacity =
    Ok (mkHeap _capacity (replicate (Z.to_nat _capacity) (null, 0)) 0
               (replicate (Z.to_nat _capacity) None)
               (replicate (Z.to_nat _capacity) None)).
Proof. reflexivity. Qed.

(** Reading a slot of an array after assignments to slots with known
    indices. *)
Ltac slots :=
  repeat first
    [ rewrite list_lookup_insert_ne by discriminate
    | rewrite list_lookup_insert_eq by (rewrite ?length_insert; lia) ];
  try reflexivity.

(** On an empty heap [push] fills slot 0 and does not call [raise]. *)
Lemma push_empty (mem : store) (h h' : Heap) (v : nat) (r : option Z) :
  nb_elem h = 0 -> push mem h v = Ok (r, h') ->
  nb_elem h' = 1 /\ elements h' = <[0%nat := (addr v, 0)]> (elements h).
Proof.
  intros N H. unfold push, is_empty in H. rewrite N in H. simpl in H.
  ok_inv H.
  match goal with
  | H1 : set_first _ _ _ = Ok _, H2 : set_second _ _ _ = Ok _ |- _ =>
      destruct (push_store_Ok _ _ _ _ _ _ H1 H2) as [_ ->]
  end.
  injection H as <- <-. simpl. rewrite N. auto.
Qed.

(** On a one-element heap [push] fills slot 1 and [raise] makes one
    comparison with the root. *)
Lemma push_one_eq (mem : store) (h : Heap) (v a : nat) (k : Z) :
  nb_elem h = 1 -> elements h !! 0%nat = Some (addr a, k) ->
  (1 < length (elements h))%nat ->
  push mem h v =
    Ok (None,
        set_nb_elem
          (set_elements h
             (if mem v <? mem a
              then <[1%nat := (addr a, k)]> (<[0%nat := (addr v, 1)]> (elements h))
              else <[1%nat := (addr v, 1)]> (elements h)))
          2).
Proof.
  intros N E0 L.
  unfold push, is_empty. rewrite N. cbn [Z.eqb].
  destruct (push_store_in (elements h) 1 (addr v) 1) as (l1 & S1 & S2); [lia|].
  rewrite S1. cbn [bind]. rewrite S2. cbn [bind].
  change (Z.to_nat 1) with 1%nat.
  set (h1 := set_elements h (<[1%nat := (addr v, 1)]> (elements h))).
  assert (N1 : nb_elem h1 = 1) by exact N.
  assert (V1 : value_at mem h1 1 = Ok (mem v)).
  { unfold value_at. rewrite (rd_lookup _ 1 (addr v, 1)); [reflexivity|lia|].
    apply list_lookup_insert_eq. exact L. }
  assert (V0 : value_at mem h1 0 = Ok (mem a)).
  { unfold value_at. rewrite (rd_lookup _ 0 (addr a, k)); [reflexivity|lia|].
    subst h1. simpl. rewrite list_lookup_insert_ne by discriminate. exact E0. }
  assert (F : forall g, nb_elem g = 1 -> get_pos_father g 1 = Ok 0).
  { intros g Hg. unfold get_pos_father. rewrite Hg. reflexivity. }
  unfold raise. rewrite N1. cbn [Z.leb Z.compare Pos.compare Pos.compare_cont assert bind].
  change (Z.to_nat 1) with 1%nat. cbn [raise_loop].
  change (1 >? 0) with true. cbn [negb].
  rewrite V1. cbn [bind]. rewrite !(F h1 N1). cbn [bind]. rewrite V0. cbn [bind].
  destruct (mem v <? mem a); cbn [negb].
  - rewrite (swap_eq h1 1 0 (addr v, 1) (addr a, k)).
    + cbn [bind]. rewrite F by exact N. cbn [bind].
      change (0 >? 0) with false. cbn [negb]. unfold set_nb_elem, set_elements.
      simpl. rewrite N.
      change (Z.to_nat 1) with 1%nat. change (Z.to_nat 0) with 0%nat.
      do 3 f_equal.
      apply list_eq. intros [|[|i]]; slots.
    + rewrite N1. lia.
    + rewrite N1. lia.
    + apply list_lookup_insert_eq. exact L.
    + subst h1. simpl. rewrite list_lookup_insert_ne by discriminate. exact E0.
  - cbn [bind]. rewrite N1. reflexivity.
Qed.

Lemma push_one (mem : store) (h h' : Heap) (v a : nat) (k : Z) (r : option Z) :
  nb_elem h = 1 -> elements h !! 0%nat = Some (addr a, k) ->
  push mem h v = Ok (r, h') ->
  nb_elem h' = 2 /\
  elements h' =
    if mem v <? mem a
    then <[1%nat := (addr a, k)]> (<[0%nat := (addr v, 1)]> (elements h))
    else <[1%nat := (addr v, 1)]> (elements h).
Proof.
  intros N E0 H.
  pose proof (push_keeps _ _ _ _ _ H) as (_ & _ & _ & L).
  rewrite (push_one_eq mem h v a k N E0) in H by lia.
  injection H as _ <-. split; reflexivity.
Qed.

(** With no room left, [push] assigns past the end of [elements]. *)
Lemma push_full (mem : store) (h : Heap) (v : nat) :
  nb_elem h = Z.of_nat (length (elements h)) -> push mem h v = Undefined.
Proof.
  intros N.
  assert (S1 : set_first (elements h) (nb_elem h) (addr v) = Undefined).
  { unfold set_first. rewrite rd_out by lia. reflexivity. }
  unfold push. rewrite S1. destruct (is_empty h); reflexivity.
Qed.

(** With two elements or more and room left, [push] stops on the assertion
    of [get_pos_father]: [raise] asks for the father of slot [nb_elem], and
    [nb_elem < nb_elem - 2] is false. *)
Lemma push_two_or_more (mem : store) (h : Heap) (v : nat) :
  2 <= nb_elem h < 2 ^ 32 -> nb_elem h < Z.of_nat (length (elements h)) ->
  push mem h v = Abort.
Proof.
  intros N L.
  unfold push, is_empty. replace (nb_elem h =? 0) with false by lia.
  destruct (push_store_in (elements h) (nb_elem h) (addr v) (nb_elem h))
    as (l1 & S1 & S2); [lia|].
  rewrite S1. cbn [bind]. rewrite S2. cbn [bind].
  set (h1 := set_elements h _).
  assert (N1 : nb_elem h1 = nb_elem h) by reflexivity.
  assert (V1 : value_at mem h1 (nb_elem h1) = Ok (mem v)).
  { unfold value_at. rewrite (rd_lookup _ _ (addr v, nb_elem h)); [reflexivity|lia|].
    subst h1. simpl. apply list_lookup_insert_eq. lia. }
  assert (F : get_pos_father h1 (nb_elem h1) = Abort).
  { unfold get_pos_father. rewrite N1, wrap_small by lia.
    replace (nb_elem h <? nb_elem h - 2) with false by lia. reflexivity. }
  unfold raise. rewrite assert_true by lia. cbn [bind raise_loop].
  replace (nb_elem h1 >? 0) with true by lia. cbn [negb].
  rewrite V1. cbn [bind]. rewrite F. reflexivity.
Qed.

Lemma push_beyond_two (mem : store) (h : Heap) (v : nat) (x : option Z * Heap) :
  fits h -> 2 <= nb_elem h -> push mem h v <> Ok x.
Proof.
  intros F N H.
  destruct x as [r h'].
  pose proof (push_keeps _ _ _ _ _ H) as (_ & _ & _ & L).
  unfold fits in F.
  rewrite push_two_or_more in H by lia. discriminate.
Qed.

(** On an empty heap [pop] reads [elements[nb_elem-1]], and [nb_elem-1] is
    [2^32-1]. *)
Lemma pop_empty (mem : store) (h : Heap) :
  fits h -> nb_elem h = 0 -> pop mem h = Undefined.
Proof.
  intros F N. unfold pop. rewrite N.
  rewrite (rd_out (elements h) (wrap (0 - 1))).
  - unfold rd at 1.
    destruct ((0 <=? 0) && (0 <? Z.of_nat (length (elements h))));
      [destruct (elements h !! Z.to_nat 0)|]; reflexivity.
  - unfold fits in F. change (wrap (0 - 1)) with (2 ^ 32 - 1). lia.
Qed.

(** On a well-formed heap that is not empty, [pop] returns the address held
    by the root node. *)
Lemma pop_root (mem : store) (h : Heap) :
  well_formed h -> 0 < nb_elem h ->
  exists a k last h',
    elements h !! 0%nat = Some (addr a, k) /\
    elements h !! Z.to_nat (nb_elem h - 1) = Some last /\
    pop mem h = Ok (a, h') /\
    well_formed h' /\ nb_elem h' = nb_elem h - 1 /\
    (nb_elem h <= 3 ->
     h' = set_nb_elem (set_elements h (<[0%nat := last]> (elements h)))
                      (nb_elem h - 1)).
Proof.
  intros WF N. pose proof WF as (B1 & B2 & L).
  destruct (L 0) as (a & k & E0); [lia|].
  destruct (L (nb_elem h - 1)) as (b & j & El); [lia|].
  change (Z.to_nat 0) with 0%nat in E0.
  set (h1 := set_nb_elem (set_elements h (<[0%nat := (addr b, j)]> (elements h)))
                         (nb_elem h - 1)).
  assert (W1 : well_formed h1).
  { unfold well_formed, h1. simpl. rewrite length_insert.
    split; [lia|]. split; [lia|]. intros i Hi.
    destruct (decide (Z.to_nat i = 0%nat)) as [->|Ni].
    - rewrite list_lookup_insert_eq by lia. eauto.
    - rewrite list_lookup_insert_ne by congruence. apply L. lia. }
  assert (P : forall h2, (if nb_elem h1 >? 2 then lower mem h1 0 else Ok h1) = Ok h2 ->
              pop mem h = Ok (a, h2)).
  { intros h2 E. unfold pop.
    rewrite (rd_lookup _ 0 (addr a, k)) by (try lia; exact E0). cbn [bind].
    rewrite (wrap_small (nb_elem h - 1)) by lia.
    rewrite (rd_lookup _ _ (addr b, j)) by (try lia; exact El). cbn [bind].
    rewrite wr_in by lia. cbn [bind]. change (Z.to_nat 0) with 0%nat.
    fold h1. rewrite E. reflexivity. }
  destruct (nb_elem h1 >? 2) eqn:G.
  - destruct (lower_total mem h1 0 W1) as (h2 & E2 & W2 & N2).
    { unfold h1 in *. simpl in *. lia. }
    exists a, k, (addr b, j), h2.
    split; [exact E0|]. split; [exact El|]. split; [apply P; exact E2|].
    split; [exact W2|]. split; [rewrite N2; reflexivity|].
    intros N3. unfold h1 in G. simpl in G. lia.
  - exists a, k, (addr b, j), h1.
    split; [exact E0|]. split; [exact El|]. split; [apply P; reflexivity|].
    split; [exact W1|]. split; [reflexivity|]. intros _. reflexivity.
Qed.

(** ** What a run of public calls can reach *)

Lemma small_heap_ordered (mem : store) (h : Heap) :
  small mem h -> heap_ordered mem h.
Proof.
  intros (_ & _ & N & O) i Hi.
  assert (i = 1) as -> by lia. apply O. lia.
Qed.

Lemma small_new (mem : store) (_capacity : Z) (h : Heap) :
  0 <= _capacity < 2 ^ 32 -> Heap_Id _capacity = Ok h ->
  small mem h /\ nb_elem h = 0.
Proof.
  intros C H. rewrite Heap_Id_eq in H. injection H as <-.
  unfold small, well_formed, fits. simpl. rewrite length_replicate.
  repeat split; try lia.
Qed.

Lemma push_small (mem : store) (h h' : Heap) (v : nat) (r : option Z) :
  small mem h -> push mem h v = Ok (r, h') -> small mem h'.
Proof.
  intros (WF & F & N & O) H.
  pose proof (push_keeps _ _ _ _ _ H) as ((_ & _ & _ & Len) & _ & _ & Room).
  pose proof WF as (B1 & B2 & L).
  assert (F' : fits h') by (unfold fits in *; rewrite Len; exact F).
  assert (C : nb_elem h = 0 \/ nb_elem h = 1 \/ nb_elem h = 2) by lia.
  destruct C as [C|[C|C]].
  - destruct (push_empty _ _ _ _ _ C H) as [N' E'].
    split; [|split; [exact F'|split; lia]].
    unfold well_formed. rewrite N', Len. split; [lia|]. split; [lia|].
    intros i Hi. assert (i = 0) as -> by lia. rewrite E'.
    change (Z.to_nat 0) with 0%nat. rewrite list_lookup_insert_eq by lia. eauto.
  - destruct (L 0) as (a & k & E0); [lia|]. change (Z.to_nat 0) with 0%nat in E0.
    destruct (push_one _ _ _ _ _ _ _ C E0 H) as [N' E'].
    assert (S0 : exists a0 k0 a1 k1,
               elements h' !! 0%nat = Some (addr a0, k0) /\
               elements h' !! 1%nat = Some (addr a1, k1) /\ mem a0 <= mem a1).
    { rewrite E'. destruct (mem v <? mem a) eqn:Cmp.
      - exists v, 1, a, k. split; [slots|]. split; [slots|]. lia.
      - exists a, k, v, 1. split; [slots; exact E0|]. split; [slots|]. lia. }
    destruct S0 as (a0 & k0 & a1 & k1 & S0 & S1 & Le).
    split; [|split; [exact F'|split; [lia|]]].
    + unfold well_formed. rewrite N', Len. split; [lia|]. split; [lia|].
      intros i Hi. assert (Ci : i = 0 \/ i = 1) by lia.
      destruct Ci as [->| ->]; eauto.
    + intros _. unfold val. change (Z.to_nat 0) with 0%nat.
      change (Z.to_nat 1) with 1%nat. rewrite S0, S1. exact Le.
  - exfalso. eapply push_beyond_two; [exact F| |exact H]. lia.
Qed.

Lemma pop_small (mem : store) (h h' : Heap) (a : nat) :
  small mem h -> pop mem h = Ok (a, h') -> small mem h'.
Proof.
  intros (WF & F & N & O) H.
  pose proof (pop_keeps _ _ _ _ H) as ((_ & _ & _ & Len) & _).
  pose proof WF as (B1 & _).
  assert (C : nb_elem h = 0 \/ 0 < nb_elem h) by lia.
  destruct C as [C|C].
  { rewrite pop_empty in H by assumption. discriminate. }
  destruct (pop_root mem h WF C) as (a' & k & last & h2 & _ & _ & P & W2 & N2 & _).
  rewrite P in H. injection H as <- <-.
  split; [exact W2|]. split; [unfold fits in *; rewrite Len; exact F|].
  split; lia.
Qed.

Lemma step_small (mem : store) (h h' : Heap) (c : call) :
  small mem h -> step mem h c = Ok h' -> small mem h'.
Proof.
  intros S H. destruct c; simpl in H.
  - ok_inv H. injection H as <-.
    match goal with Hp : push _ _ _ = Ok ?x |- _ => destruct x end.
    eapply push_small; eassumption.
  - ok_inv H. injection H as <-.
    match goal with Hp : pop _ _ = Ok ?x |- _ => destruct x end.
    eapply pop_small; eassumption.
  - injection H as <-. exact S.
Qed.

Lemma run_small (mem : store) (cs : list call) :
  forall h h', small mem h -> run mem h cs = Ok h' -> small mem h'.
Proof.
  induction cs as [|c cs IH]; simpl; intros h h' S H.
  - injection H as <-. exact S.
  - ok_inv H. eapply IH; [eapply step_small|]; eassumption.
Qed.

(** ** C2: heap order *)

(** As long as the elements keep their values, the heaps a run reaches (of
    two elements at most) are in order: from a newly built heap, after any
    sequence of [push], [pop] and [reposition] calls that runs to its end,
    every live slot [i > 0] is worth at least its father, slot [(i-1)/2]
    (and every live slot points to an element, so that it is worth
    something). *)
Theorem heap_order_invariant (mem : store) (_capacity : Z) (cs : list call)
        (h0 h : Heap) :
  0 <= _capacity < 2 ^ 32 ->
  Heap_Id _capacity = Ok h0 ->
  run mem h0 cs = Ok h ->
  well_formed h /\ heap_ordered mem h.
Proof.
  intros C H0 R.
  destruct (small_new mem _ _ C H0) as [S0 _].
  pose proof (run_small mem cs h0 h S0 R) as S.
  split; [apply S | apply small_heap_ordered; exact S].
Qed.

Lemma heap_order_invariant_witness :
  0 <= 4 < 2 ^ 32 /\
  run mem0 (mkHeap 4 (replicate 4 (null, 0)) 0 (replicate 4 None) (replicate 4 None))
      [Push 0%nat; Push 1%nat; Pop; Reposition 0; Push 3%nat] = Ok heap_1_5 /\
  well_formed heap_1_5 /\ heap_ordered mem0 heap_1_5.
Proof.
  assert (C : 0 <= 4 < 2 ^ 32) by lia.
  assert (R : run mem0 (mkHeap 4 (replicate 4 (null, 0)) 0 (replicate 4 None)
                               (replicate 4 None))
                  [Push 0%nat; Push 1%nat; Pop; Reposition 0; Push 3%nat]
              = Ok heap_1_5) by (vm_compute; reflexivity).
  split; [exact C|]. split; [exact R|].
  exact (heap_order_invariant mem0 4 _ _ heap_1_5 C (Heap_Id_eq 4) R).
Defined.

(** C2 does not hold of the code.  [reposition] is what a caller calls
    after it has changed the value of an element, and its body is empty.
    The elements worth 5 and 10 are pushed on a new heap, which is then in
    order; the second is set to 0 by its owner and [reposition 1] is called:
    the call returns the heap as it is, with slot 1, now worth 0, below its
    father, slot [(1-1)/2 = 0], worth 5. *)
Theorem heap_order_lost_after_reposition :
  exists h0 h h',
    Heap_Id 2 = Ok h0 /\
    run mem_5_10 h0 [Push 0%nat; Push 1%nat] = Ok h /\
    heap_ordered mem_5_10 h /\
    run mem_5_0 h [Reposition 1] = Ok h' /\
    nb_elem h' = 2 /\
    val mem_5_0 h' ((1 - 1) / 2) = 5 /\ val mem_5_0 h' 1 = 0 /\
    ~ heap_ordered mem_5_0 h'.
Proof.
  do 3 eexists.
  split; [reflexivity|]. split; [vm_compute; reflexivity|].
  split.
  { intros i Hi. simpl in Hi. assert (i = 1) as -> by lia.
    vm_compute. discriminate. }
  split; [reflexivity|].
  do 3 (split; [reflexivity|]).
  intros O. specialize (O 1). vm_compute in O.
  apply O; [split; reflexivity | reflexivity].
Qed.

(** The test [nb_elem>2] of [pop] leaves [lower] out when two elements
    remain.  No run reaches a heap of three elements, so no run meets this;
    on such a heap, were it built, [pop] would leave the larger of the two
    remaining elements at the root. *)
Lemma pop_of_three_skips_lower :
  heap_ordered mem0 heap_1_3_5 /\
  exists h', pop mem0 heap_1_3_5 = Ok (3%nat, h') /\ ~ heap_ordered mem0 h'.
Proof.
  split.
  - intros i Hi. simpl in Hi.
    assert (C : i = 1 \/ i = 2) by lia.
    destruct C as [-> | ->]; vm_compute; discriminate.
  - eexists. split; [vm_compute; reflexivity|].
    intros O. specialize (O 1). vm_compute in O.
    apply O; [split; reflexivity | reflexivity].
Qed.

(** ** C4: the order in which [pop] gives the elements back *)

Lemma populate_cons (mem : store) (h h2 : Heap) (v : nat) (vs : list nat) :
  populate mem h (v :: vs) = Ok h2 ->
  exists r h1, push mem h v = Ok (r, h1) /\ populate mem h1 vs = Ok h2.
Proof.
  unfold populate. simpl. intros H. ok_inv H.
  match goal with Hs : bind (push _ _ _) _ = Ok _ |- _ => ok_inv Hs; rename Hs into E end.
  injection E as <-.
  match goal with Hp : push _ _ _ = Ok ?x |- _ => destruct x as [r h1] end.
  eauto.
Qed.

Lemma populate_nb_elem (mem : store) (vs : list nat) :
  forall h0 h, small mem h0 -> populate mem h0 vs = Ok h ->
               nb_elem h = nb_elem h0 + Z.of_nat (length vs).
Proof.
  induction vs as [|v vs IH]; intros h0 h S H.
  - injection H as <-. simpl. lia.
  - apply populate_cons in H as (r & h1 & P & H).
    pose proof (push_small _ _ _ _ _ S P) as S1.
    pose proof (push_keeps _ _ _ _ _ P) as (_ & N1 & _ & _).
    rewrite (IH _ _ S1 H), N1.
    destruct S as ((B & _) & _ & N & _). rewrite wrap_small by lia.
    simpl length. lia.
Qed.

Lemma pop_one_slot (mem : store) (h : Heap) (x : nat) (kx : Z) :
  well_formed h -> nb_elem h = 1 ->
  elements h !! 0%nat = Some (addr x, kx) ->
  exists h', pop_n mem 1 h = Ok ([x], h') /\ pops_min mem 1 h /\ nb_elem h' = 0.
Proof.
  intros WF N E0.
  destruct (pop_root mem h WF) as (a & k & last & h' & E0' & _ & P & _ & N' & _);
    [lia|].
  rewrite E0 in E0'. injection E0' as <- <-.
  exists h'. split; [|split].
  - simpl. rewrite P. reflexivity.
  - simpl. exists x, kx, h'. split; [exact E0|]. split; [|split; [exact P|exact I]].
    intros i Hi. assert (i = 0) as -> by lia.
    unfold val. change (Z.to_nat 0) with 0%nat. rewrite E0. lia.
  - lia.
Qed.

Lemma pop_two_slots (mem : store) (h : Heap) (x y : nat) (kx ky : Z) :
  well_formed h -> nb_elem h = 2 ->
  elements h !! 0%nat = Some (addr x, kx) ->
  elements h !! 1%nat = Some (addr y, ky) ->
  mem x <= mem y ->
  exists h', pop_n mem 2 h = Ok ([x; y], h') /\ pops_min mem 2 h /\ nb_elem h' = 0.
Proof.
  intros WF N E0 E1 Le.
  destruct (pop_root mem h WF) as (a & k & last & h1 & E0' & El & P & W1 & N1 & H1);
    [lia|].
  rewrite E0 in E0'. injection E0' as <- <-.
  rewrite N in El. change (Z.to_nat (2 - 1)) with 1%nat in El.
  rewrite E1 in El. injection El as <-.
  rewrite H1 in * by lia.
  destruct (pop_one_slot mem _ y ky W1) as (h2 & P2 & M2 & N2).
  { simpl. lia. }
  { simpl. apply list_lookup_insert_eq. apply lookup_lt_Some in E0. exact E0. }
  exists h2. split; [|split].
  - change (pop_n mem 2 h) with
      (let* r := pop mem h in
       let* rs := pop_n mem 1 (snd r) in Ok (fst r :: fst rs, snd rs)).
    rewrite P. cbn [bind fst snd]. rewrite P2. reflexivity.
  - change (pops_min mem 2 h) with
      (exists a k h',
          elements h !! 0%nat = Some (addr a, k) /\
          (forall i, 0 <= i < nb_elem h -> mem a <= val mem h i) /\
          pop mem h = Ok (a, h') /\ pops_min mem 1 h').
    exists x, kx. eexists. split; [exact E0|]. split; [|split; [exact P|exact M2]].
    intros i Hi. assert (C : i = 0 \/ i = 1) by lia.
    unfold val. destruct C as [-> | ->].
    + change (Z.to_nat 0) with 0%nat. rewrite E0. lia.
    + change (Z.to_nat 1) with 1%nat. rewrite E1. exact Le.
  - exact N2.
Qed.

(** For the one or two elements a heap can be given: when the elements at
    addresses [vs] ([vs] not empty) have been pushed, in order, on a newly
    built heap, as many calls of [pop] succeed;
    they return the pushed elements, each once, in non-decreasing order of
    value, each call returning the element held by slot 0, which is a
    minimum of the live elements; the heap is then empty. *)
Theorem pop_order (mem : store) (_capacity : Z) (vs : list nat) (h0 h : Heap) :
  0 <= _capacity < 2 ^ 32 ->
  Heap_Id _capacity = Ok h0 ->
  (1 <= length vs)%nat ->
  populate mem h0 vs = Ok h ->
  exists outs h',
    pop_n mem (length vs) h = Ok (outs, h') /\
    Permutation outs vs /\
    Sorted Z.le (map mem outs) /\
    pops_min mem (length vs) h /\
    is_empty h' = true.
Proof.
  intros C H0 Len P.
  destruct (small_new mem _ _ C H0) as [S0 N0].
  pose proof (populate_nb_elem mem vs h0 h S0 P) as N.
  pose proof (run_small mem _ h0 h S0 P) as (WF & _ & N2 & _).
  rewrite N0 in N.
  destruct vs as [|a [|b [|c vs]]]; simpl in Len, N; try lia.
  - apply populate_cons in P as (r & h1 & P1 & P). injection P as <-.
    pose proof (push_keeps _ _ _ _ _ P1) as (_ & _ & _ & Room).
    destruct (push_empty _ _ _ _ _ N0 P1) as [N1 E1].
    destruct (pop_one_slot mem h1 a 0 WF N1) as (h' & Pn & M & N').
    { rewrite E1. apply list_lookup_insert_eq. lia. }
    exists [a], h'. split; [exact Pn|]. split; [reflexivity|].
    split; [repeat constructor|]. split; [exact M|].
    unfold is_empty. rewrite N'. reflexivity.
  - apply populate_cons in P as (r & h1 & P1 & P).
    apply populate_cons in P as (r' & h2 & P2 & P). injection P as <-.
    pose proof (push_keeps _ _ _ _ _ P1) as (_ & _ & _ & Room1).
    pose proof (push_keeps _ _ _ _ _ P2) as (_ & _ & _ & Room2).
    destruct (push_empty _ _ _ _ _ N0 P1) as [N1 E1].
    assert (E10 : elements h1 !! 0%nat = Some (addr a, 0)).
    { rewrite E1. apply list_lookup_insert_eq. lia. }
    destruct (push_one _ _ _ _ _ _ _ N1 E10 P2) as [N2' E2].
    destruct (mem b <? mem a) eqn:Cmp.
    + destruct (pop_two_slots mem h2 b a 1 0 WF N2') as (h' & Pn & M & N').
      { rewrite E2. slots. }
      { rewrite E2. slots. }
      { lia. }
      exists [b; a], h'. split; [exact Pn|]. split; [apply perm_swap|].
      split; [repeat constructor; lia|]. split; [exact M|].
      unfold is_empty. rewrite N'. reflexivity.
    + destruct (pop_two_slots mem h2 a b 0 1 WF N2') as (h' & Pn & M & N').
      { rewrite E2. slots. exact E10. }
      { rewrite E2. slots. }
      { lia. }
      exists [a; b], h'. split; [exact Pn|]. split; [reflexivity|].
      split; [repeat constructor; lia|]. split; [exact M|].
      unfold is_empty. rewrite N'. reflexivity.
Qed.

Lemma pop_order_witness :
  0 <= 4 < 2 ^ 32 /\ (1 <= length [0%nat; 1%nat])%nat /\
  exists h outs h',
    populate mem0 (mkHeap 4 (replicate 4 (null, 0)) 0 (replicate 4 None)
                          (replicate 4 None)) [0%nat; 1%nat] = Ok h /\
    pop_n mem0 2 h = Ok (outs, h') /\
    Permutation outs [0%nat; 1%nat] /\ Sorted Z.le (map mem0 outs).
Proof.
  assert (C : 0 <= 4 < 2 ^ 32) by lia.
  assert (L : (1 <= length [0%nat; 1%nat])%nat) by (simpl; lia).
  assert (P : populate mem0 (mkHeap 4 (replicate 4 (null, 0)) 0 (replicate 4 None)
                                    (replicate 4 None)) [0%nat; 1%nat]
              = Ok (mkHeap 4 [(addr 1, 1); (addr 0, 0); (null, 0); (null, 0)] 2
                           [None; None; None; None] [None; None; None; None]))
    by (vm_compute; reflexivity).
  split; [exact C|]. split; [exact L|].
  destruct (pop_order mem0 4 [0%nat; 1%nat] _ _ C (Heap_Id_eq 4) L P)
    as (outs & h' & Pn & Pm & St & _ & _).
  eexists. exists outs, h'. split; [exact P|]. split; [exact Pn|].
  split; [exact Pm | exact St].
Defined.

(** Three elements or more cannot be pushed on a new heap. *)
Lemma populate_three_or_more (mem : store) (_capacity : Z) (vs : list nat)
      (h0 h : Heap) :
  0 <= _capacity < 2 ^ 32 ->
  Heap_Id _capacity = Ok h0 ->
  (3 <= length vs)%nat ->
  populate mem h0 vs <> Ok h.
Proof.
  intros C H0 L P.
  destruct (small_new mem _ _ C H0) as [S0 N0].
  pose proof (populate_nb_elem mem vs h0 h S0 P) as N.
  pose proof (run_small mem _ h0 h S0 P) as (_ & _ & N2 & _).
  lia.
Qed.

(** C4 does not hold of the code.  On a new heap of capacity 4, pushing
    the elements worth 5, 3 and 8 stops on the assertion of
    [get_pos_father] at the third [push]: the heap is never populated and
    nothing can be popped.  And [pop] itself does not give three elements
    back in order: from the heap of the elements worth 1, 3 and 5, in order,
    three calls return 1, 5 and 3, since [pop] leaves [lower] out when two
    elements remain. *)
Theorem three_values_not_popped_in_order :
  (exists h0, Heap_Id 4 = Ok h0 /\
              populate mem0 h0 [0%nat; 1%nat; 2%nat] = Abort) /\
  heap_ordered mem0 heap_1_3_5 /\
  exists outs h',
    pop_n mem0 3 heap_1_3_5 = Ok (outs, h') /\
    map mem0 outs = [1; 5; 3] /\
    ~ Sorted Z.le (map mem0 outs).
Proof.
  split; [|split].
  - eexists. split; [reflexivity|]. vm_compute. reflexivity.
  - intros i Hi. simpl in Hi.
    assert (C : i = 1 \/ i = 2) by lia.
    destruct C as [-> | ->]; vm_compute; discriminate.
  - do 2 eexists. split; [vm_compute; reflexivity|].
    split; [reflexivity|].
    intros S. simpl in S.
    inversion S as [|x l S1 H1]; subst.
    inversion S1 as [|x l S2 H2]; subst.
    inversion H2 as [|y l' Le]; subst. vm_compute in Le. apply Le. reflexivity.
Qed.

(** ** C1: the id table *)

(** No cell of [id_to_pos] is ever assigned: whatever the calls, the table
    is as the constructor left it, and a heap that holds an element is not
    index-consistent. *)
Lemma id_to_pos_never_assigned (mem : store) (_capacity : Z) (cs : list call)
      (h0 h : Heap) :
  0 <= _capacity < 2 ^ 32 ->
  Heap_Id _capacity = Ok h0 ->
  run mem h0 cs = Ok h ->
  id_to_pos h = replicate (Z.to_nat _capacity) None /\
  (0 < nb_elem h -> ~ index_consistent h).
Proof.
  intros C H0 R.
  pose proof (run_keeps mem cs _ _ R) as (_ & T & _ & _).
  destruct (small_new mem _ _ C H0) as [S0 _].
  pose proof (run_small mem cs h0 h S0 R) as ((_ & _ & L) & _).
  rewrite Heap_Id_eq in H0. injection H0 as <-. simpl in T.
  split; [exact T|]. intros N IC.
  destruct (L 0) as (a & k & E0); [lia|].
  specialize (IC 0 (addr a) k ltac:(lia) E0).
  rewrite T in IC. apply lookup_replicate in IC as [IC _]. discriminate.
Qed.

(** C1 does not hold of the code.  On a heap of capacity 2, after [push] of
    an element worth 5 and [push] of an element worth 3, [raise] has
    exchanged the two nodes, slot 0 holds id 1 and slot 1 holds id 0, and
    [id_to_pos] is as the constructor left it: [swap] assigns no cell of it,
    nor does [push].  The heap is not index-consistent. *)
Theorem index_consistency_fails :
  exists h0 h,
    Heap_Id 2 = Ok h0 /\
    run mem0 h0 [Push 0%nat; Push 1%nat] = Ok h /\
    elements h = [(addr 1, 1); (addr 0, 0)] /\
    id_to_pos h = [None; None] /\
    ~ index_consistent h.
Proof.
  eexists. eexists. split; [reflexivity|]. split; [vm_compute; reflexivity|].
  split; [reflexivity|]. split; [reflexivity|].
  intros IC. specialize (IC 0 (addr 1) 1). simpl in IC.
  assert (E : Some None = Some (Some 0)) by (apply IC; [lia|reflexivity]).
  discriminate.
Qed.

(** The cells [new] leaves in [id_to_pos] are indeterminate; whatever they
    hold, some run breaks index consistency.  Pushing 5 then 3, or 3 then 5,
    leaves the same table and two different layouts of the ids. *)
Lemma no_initial_table_helps (t t' : list (option Z)) :
  exists cs h,
    run mem0 (mkHeap 2 [(null, 0); (null, 0)] 0 t t') cs = Ok h /\
    ~ index_consistent h.
Proof.
  destruct (decide (t !! 1%nat = Some (Some 0))) as [E|E].
  - exists [Push 1%nat; Push 0%nat]. eexists.
    split; [vm_compute; reflexivity|].
    intros IC. specialize (IC 1 (addr 0) 1). simpl in IC.
    change (Z.to_nat 1) with 1%nat in IC. rewrite E in IC.
    assert (X : Some (Some 0) = Some (Some 1)) by (apply IC; [lia|reflexivity]).
    discriminate.
  - exists [Push 0%nat; Push 1%nat]. eexists.
    split; [vm_compute; reflexivity|].
    intros IC. specialize (IC 0 (addr 1) 1). simpl in IC.
    change (Z.to_nat 1) with 1%nat in IC.
    apply E. apply IC; [lia|reflexivity].
Qed.

(** ** C3: what [push] does *)

(** C3 does not hold of the code.  On a new heap of capacity 4, [push]
    stores the node [(v, nb_elem)] and increments [nb_elem], but it returns
    no id (its body has no [return]), and it assigns no cell of [id_to_pos]
    or of [id_free]; and once two elements are in, with two slots left, the
    next [push] stops on the assertion of [get_pos_father]. *)
Theorem push_contract_fails :
  exists h0 h1 h2,
    Heap_Id 4 = Ok h0 /\
    push mem0 h0 0 = Ok (None, h1) /\
    elements h1 !! 0%nat = Some (addr 0, 0) /\ nb_elem h1 = 1 /\
    id_to_pos h1 = id_to_pos h0 /\ id_free h1 = id_free h0 /\
    id_to_pos h1 !! 0%nat = Some None /\
    push mem0 h1 1 = Ok (None, h2) /\
    nb_elem h2 = 2 /\ capacity h2 = 4 /\
    push mem0 h2 2 = Abort.
Proof.
  do 3 eexists.
  split; [reflexivity|]. split; [vm_compute; reflexivity|].
  do 5 (split; [reflexivity|]).
  split; [vm_compute; reflexivity|].
  do 2 (split; [reflexivity|]).
  vm_compute. reflexivity.
Qed.

(** ** C5: [reposition] *)

(** C5 does not hold of the code.  The elements worth 5 and 10 are pushed
    and get the ids 0 and 1; the second is then changed to 0.
    [reposition 1] leaves the heap as it is: slot 0 still holds id 0, worth
    5, above the element now worth 0, and the heap is out of order.
    [reposition] of an id that was never given, 7, is accepted as well. *)
Theorem reposition_does_nothing :
  exists h0 h,
    Heap_Id 2 = Ok h0 /\
    run mem_5_10 h0 [Push 0%nat; Push 1%nat] = Ok h /\
    elements h = [(addr 0, 0); (addr 1, 1)] /\
    reposition h 1 = Ok h /\
    val mem_5_0 h 0 = 5 /\ val mem_5_0 h 1 = 0 /\
    ~ heap_ordered mem_5_0 h /\
    reposition h 7 = Ok h.
Proof.
  do 2 eexists.
  split; [reflexivity|]. split; [vm_compute; reflexivity|].
  do 4 (split; [reflexivity|]).
  split; [|reflexivity].
  intros O. specialize (O 1). vm_compute in O.
  apply O; [split; reflexivity | reflexivity].
Qed.

(** ** C6: [push] on a full heap *)

(** C6 does not hold of the code.  [push] does not compare [nb_elem] with
    [capacity]: on a heap of capacity 2 that holds two elements it assigns
    [elements[2]], past the end of the array. *)
Theorem push_on_full_heap :
  exists h0 h,
    Heap_Id 2 = Ok h0 /\
    run mem0 h0 [Push 0%nat; Push 1%nat] = Ok h /\
    nb_elem h = capacity h /\
    Z.of_nat (length (elements h)) = capacity h /\
    push mem0 h 2 = Undefined.
Proof.
  do 2 eexists.
  split; [reflexivity|]. split; [vm_compute; reflexivity|].
  do 2 (split; [reflexivity|]).
  apply push_full. reflexivity.
Qed.

(** ** The loop of [raise] ends *)

Lemma bind_ends {A B : Type} (m : outcome A) (k : A -> outcome B) :
  ends m -> (forall a, m = Ok a -> ends (k a)) -> ends (bind m k).
Proof.
  unfold ends. intros Hm Hk. destruct m; simpl; try discriminate.
  - apply Hk. reflexivity.
  - intros _. apply Hm. reflexivity.
Qed.

Lemma assert_ends (b : bool) : ends (assert b).
Proof. destruct b; discriminate. Qed.

Lemma rd_ends {A : Type} (l : list A) (i : Z) : ends (rd l i).
Proof.
  unfold rd, ends.
  destruct ((0 <=? i) && (i <? Z.of_nat (length l)));
    [destruct (l !! Z.to_nat i)|]; discriminate.
Qed.

Lemma wr_ends {A : Type} (l : list A) (i : Z) (x : A) : ends (wr l i x).
Proof.
  unfold wr, ends.
  destruct ((0 <=? i) && (i <? Z.of_nat (length l))); discriminate.
Qed.

Lemma value_at_ends (mem : store) (h : Heap) (pos : Z) : ends (value_at mem h pos).
Proof.
  unfold value_at. apply bind_ends; [apply rd_ends|].
  intros [[|a] k] _; discriminate.
Qed.

Lemma get_pos_father_ends (h : Heap) (i : Z) : ends (get_pos_father h i).
Proof.
  unfold get_pos_father. apply bind_ends; [apply assert_ends|]. discriminate.
Qed.

Lemma swap_ends (h : Heap) (a b : Z) : ends (swap h a b).
Proof.
  unfold swap.
  repeat (apply bind_ends;
          [first [apply assert_ends | apply rd_ends | apply wr_ends]|intros ? _]).
  discriminate.
Qed.

Lemma get_pos_father_lt (h : Heap) (pos f : Z) :
  0 < pos -> get_pos_father h pos = Ok f -> 0 <= f < pos.
Proof.
  intros Hp H. unfold get_pos_father in H. ok_inv H. injection H as <-.
  pose proof (wrap_range (pos - 1)) as R.
  assert (wrap (pos - 1) <= pos - 1).
  { unfold wrap. apply Z.mod_le; lia. }
  split; [apply Z.div_pos; lia|].
  apply Z.div_lt_upper_bound; lia.
Qed.

Lemma raise_loop_fuel (mem : store) (fuel : nat) :
  forall (h : Heap) (pos : Z),
    (Z.to_nat pos < fuel)%nat -> ends (raise_loop fuel mem h pos).
Proof.
  induction fuel as [|fuel IH]; intros h pos Hf; [lia|].
  cbn [raise_loop].
  destruct (pos >? 0) eqn:Hp; cbn [negb]; [|discriminate].
  apply bind_ends; [apply value_at_ends|intros v _].
  apply bind_ends; [apply get_pos_father_ends|intros f _].
  apply bind_ends; [apply value_at_ends|intros vf _].
  destruct (negb (v <? vf)); [discriminate|].
  apply bind_ends; [apply get_pos_father_ends|intros f1 _].
  apply bind_ends; [apply swap_ends|intros h' _].
  apply bind_ends; [apply get_pos_father_ends|intros pos' Hpos'].
  apply IH. apply get_pos_father_lt in Hpos'; lia.
Qed.

Lemma raise_ends (mem : store) (h : Heap) (pos : Z) : ends (raise mem h pos).
Proof.
  unfold raise. apply bind_ends; [apply assert_ends|intros _ _].
  apply raise_loop_fuel. lia.
Qed.

Lemma push_ends (mem : store) (h : Heap) (v : nat) : ends (push mem h v).
Proof.
  assert (S1 : forall l i p, ends (set_first l i p)).
  { intros. unfold set_first. apply bind_ends; [apply rd_ends|intros; apply wr_ends]. }
  assert (S2 : forall l i k, ends (set_second l i k)).
  { intros. unfold set_second. apply bind_ends; [apply rd_ends|intros; apply wr_ends]. }
  unfold push. destruct (is_empty h).
  - apply bind_ends; [apply S1|intros l1 _].
    apply bind_ends; [apply S2|intros l2 _]. discriminate.
  - apply bind_ends; [apply S1|intros l1 _].
    apply bind_ends; [apply S2|intros l2 _].
    apply bind_ends; [apply raise_ends|intros h2 _]. discriminate.
Qed.

(** ** The loop of [lower] ends *)

Lemma get_pos_left_son_ends (h : Heap) (i : Z) : ends (get_pos_left_son h i).
Proof.
  unfold get_pos_left_son. apply bind_ends; [apply assert_ends|]. discriminate.
Qed.

Lemma get_pos_right_son_ends (h : Heap) (i : Z) : ends (get_pos_right_son h i).
Proof.
  unfold get_pos_right_son. apply bind_ends; [apply assert_ends|]. discriminate.
Qed.

Lemma lt_ends (mem : store) (h : Heap) (i j : Z) : ends (lt mem h i j).
Proof.
  unfold lt.
  repeat (apply bind_ends;
          [first [apply assert_ends | apply value_at_ends]|intros ? _]).
  discriminate.
Qed.

Lemma le_ends (mem : store) (h : Heap) (i j : Z) : ends (le mem h i j).
Proof.
  unfold le.
  repeat (apply bind_ends;
          [first [apply assert_ends | apply value_at_ends]|intros ? _]).
  discriminate.
Qed.

Lemma son_gt (h : Heap) (pos c : Z) :
  0 <= pos -> nb_elem h < 2 ^ 31 ->
  get_pos_left_son h pos = Ok c \/ get_pos_right_son h pos = Ok c ->
  pos < c /\ pos < nb_elem h.
Proof.
  intros Hp B [H|H]; [unfold get_pos_left_son in H|unfold get_pos_right_son in H];
    ok_inv H; injection H as <-; rewrite wrap_small by lia; lia.
Qed.

Lemma lower_loop_ends (mem : store) (fuel : nat) :
  forall (h : Heap) (pos : Z),
    0 <= pos -> nb_elem h < 2 ^ 31 ->
    (Z.to_nat (nb_elem h - pos) < fuel)%nat ->
    ends (lower_loop fuel mem h pos).
Proof.
  induction fuel as [|fuel IH]; intros h pos Hp B Hf; [lia|].
  cbn [lower_loop].
  apply bind_ends; [apply get_pos_right_son_ends|intros r _].
  destruct (negb (r <? nb_elem h)); [discriminate|].
  apply bind_ends; [apply get_pos_left_son_ends|intros l _].
  destruct (negb (l <? nb_elem h)); [discriminate|].
  apply bind_ends; [apply value_at_ends|intros v _].
  apply bind_ends; [apply get_pos_left_son_ends|intros l1 _].
  apply bind_ends; [apply value_at_ends|intros vl _].
  apply bind_ends.
  { destruct (v >? vl); [discriminate|].
    apply bind_ends; [apply value_at_ends|intros v' _].
    apply bind_ends; [apply get_pos_right_son_ends|intros r1 _].
    apply bind_ends; [apply value_at_ends|intros vr _]. discriminate. }
  intros gt _. destruct (negb gt); [discriminate|].
  apply bind_ends; [apply get_pos_left_son_ends|intros l2 _].
  apply bind_ends; [apply get_pos_right_son_ends|intros r2 _].
  apply bind_ends; [apply le_ends|intros c _].
  destruct c.
  - apply bind_ends; [apply get_pos_left_son_ends|intros l3 _].
    apply bind_ends; [apply swap_ends|intros h' Hs].
    apply bind_ends; [apply get_pos_left_son_ends|intros pos' Hpos'].
    apply swap_keeps in Hs as [_ N].
    destruct (son_gt h' pos pos' Hp) as [G1 G2]; [lia|auto|].
    apply IH; lia.
  - apply bind_ends; [apply get_pos_right_son_ends|intros r3 _].
    apply bind_ends; [apply swap_ends|intros h' Hs].
    apply bind_ends; [apply get_pos_right_son_ends|intros pos' Hpos'].
    apply swap_keeps in Hs as [_ N].
    destruct (son_gt h' pos pos' Hp) as [G1 G2]; [lia|auto|].
    apply IH; lia.
Qed.

Lemma lower_ends (mem : store) (h : Heap) (pos : Z) :
  0 <= pos -> nb_elem h < 2 ^ 31 -> ends (lower mem h pos).
Proof.
  intros Hp B. unfold lower.
  apply bind_ends; [apply lower_loop_ends; lia|intros [h1 pos1] _].
  cbn [fst snd].
  apply bind_ends; [apply get_pos_left_son_ends|intros l _].
  destruct (l =? wrap (nb_elem h1 - 1)); [|discriminate].
  apply bind_ends; [apply get_pos_left_son_ends|intros l' _].
  apply bind_ends; [apply lt_ends|intros c _].
  destruct c; [|discriminate].
  apply bind_ends; [apply get_pos_left_son_ends|intros l'' _].
  apply swap_ends.
Qed.

Lemma pop_ends (mem : store) (h : Heap) :
  fits h -> 0 <= nb_elem h <= 2 ^ 31 -> ends (pop mem h).
Proof.
  intros F B.
  destruct (Z.eq_dec (nb_elem h) 0) as [E|E].
  { rewrite pop_empty by assumption. discriminate. }
  unfold pop.
  apply bind_ends; [apply rd_ends|intros min _].
  apply bind_ends; [apply rd_ends|intros last _].
  apply bind_ends; [apply wr_ends|intros l _].
  cbn [nb_elem set_nb_elem set_elements].
  rewrite wrap_small by lia.
  apply bind_ends.
  - destruct (nb_elem h - 1 >? 2); [|discriminate].
    apply lower_ends; [lia|]. cbn [nb_elem set_nb_elem]. lia.
  - intros h2 _. destruct (fst min); discriminate.
Qed.

(** No public call runs out of fuel on a heap of less than [2^31]
    elements: the fuel of the loops is no restriction of the model. *)
Lemma step_ends (mem : store) (h : Heap) (c : call) :
  fits h -> 0 <= nb_elem h <= 2 ^ 31 -> ends (step mem h c).
Proof.
  intros F B. destruct c; simpl.
  - apply bind_ends; [apply push_ends|intros; discriminate].
  - apply bind_ends; [apply pop_ends; assumption|intros; discriminate].
  - discriminate.
Qed.

(** ** C7: [pop] *)

(** C7 does not hold of the code as it is worded.  [pop] has no test of
    emptiness: on a new heap it reads [elements[nb_elem-1]], out of the
    array, which is undefined behaviour and not a reported failure.  And
    what [pop] returns carries no id: two heaps that differ in the id of the
    root node only give the same result. *)
Lemma pop_has_no_guard_and_returns_no_id :
  (exists h0, Heap_Id 2 = Ok h0 /\ is_empty h0 = true /\ pop mem0 h0 = Undefined) /\
  (exists h h',
      pop mem0 (mkHeap 2 [(addr 0, 0); (null, 0)] 1 [None; None] [None; None])
      = Ok (0%nat, h) /\
      pop mem0 (mkHeap 2 [(addr 0, 1); (null, 0)] 1 [None; None] [None; None])
      = Ok (0%nat, h')).
Proof.
  split.
  - eexists. split; [reflexivity|]. split; [reflexivity|].
    vm_compute. reflexivity.
  - do 2 eexists. split; vm_compute; reflexivity.
Qed.

(** ** C8: the constructor *)

(** C8 does not hold of the code as it is worded: the constructor accepts
    the capacity 0. *)
Lemma Heap_Id_accepts_zero : Heap_Id 0 = Ok (mkHeap 0 [] 0 [] []).
Proof. reflexivity. Qed.

(** C8, amended.  For every capacity the constructor succeeds and builds a
    heap of that capacity with no element and three tables of [_capacity]
    cells. *)
Theorem Heap_Id_builds (_capacity : Z) :
  0 <= _capacity ->
  exists h,
    Heap_Id _capacity = Ok h /\
    capacity h = _capacity /\ nb_elem h = 0 /\ is_empty h = true /\
    Z.of_nat (length (elements h)) = _capacity /\
    Z.of_nat (length (id_to_pos h)) = _capacity /\
    Z.of_nat (length (id_free h)) = _capacity.
Proof.
  intros C. eexists. split; [apply Heap_Id_eq|]. simpl.
  rewrite !length_replicate. repeat split; lia.
Qed.

Lemma Heap_Id_builds_witness :
  0 <= 4 /\
  exists h, Heap_Id 4 = Ok h /\ capacity h = 4 /\ nb_elem h = 0 /\
            Z.of_nat (length (elements h)) = 4.
Proof.
  assert (C : 0 <= 4) by lia.
  split; [exact C|].
  destruct (Heap_Id_builds 4 C) as (h & H & Hc & Hn & _ & He & _).
  exists h. auto.
Defined.

(** ** C10: the ids [push] gives *)

Lemma get_pos_father_Ok (h : Heap) (i f : Z) :
  get_pos_father h i = Ok f -> f = wrap (i - 1) / 2.
Proof.
  unfold get_pos_father. intros H. ok_inv H. injection H as <-. reflexivity.
Qed.

(** The node [raise] starts from ends at a slot no higher than the one it
    started at. *)
Lemma raise_loop_node (mem : store) (fuel : nat) :
  forall (h h' : Heap) (pos : Z) (x : Node),
    0 <= pos ->
    raise_loop fuel mem h pos = Ok h' ->
    elements h !! Z.to_nat pos = Some x ->
    exists j, 0 <= j <= pos /\ elements h' !! Z.to_nat j = Some x.
Proof.
  induction fuel as [|fuel IH]; intros h h' pos x Hp H E; simpl in H; [discriminate|].
  ok_if H. { injection H as <-. exists pos. split; [lia|exact E]. }
  ok_inv H.
  ok_if H. { injection H as <-. exists pos. split; [lia|exact E]. }
  ok_inv H.
  match goal with
  | Hs : swap h pos ?f = Ok ?h1, Hf : get_pos_father h pos = Ok ?f,
    Hf' : get_pos_father ?h1 pos = Ok ?p' |- _ =>
      assert (Pos : 0 < pos) by lia;
      pose proof (get_pos_father_lt _ _ _ Pos Hf) as Lt;
      apply get_pos_father_Ok in Hf'; pose proof (get_pos_father_Ok _ _ _ Hf) as Ef;
      assert (p' = f) as -> by congruence;
      apply swap_inv in Hs as (ea & eb & _ & _ & Ea & Eb & ->);
      destruct (IH _ _ f x (proj1 Lt) H) as (j & Hj & Ej)
  end.
  - simpl. rewrite E in Ea. injection Ea as <-.
    rewrite list_lookup_insert_ne by lia.
    apply list_lookup_insert_eq. apply lookup_lt_Some in Eb. exact Eb.
  - exists j. split; [lia|exact Ej].
Qed.

Lemma push_records (mem : store) (h h' : Heap) (v : nat) (r : option Z) :
  fits h -> push mem h v = Ok (r, h') ->
  exists i, 0 <= i < nb_elem h' /\
            elements h' !! Z.to_nat i = Some (addr v, nb_elem h).
Proof.
  intros F H.
  pose proof (push_keeps _ _ _ _ _ H) as (_ & N' & _ & Room).
  unfold fits in F. rewrite wrap_small in N' by lia.
  destruct (is_empty h) eqn:Em.
  - apply Z.eqb_eq in Em. destruct (push_empty _ _ _ _ _ Em H) as [_ E'].
    exists 0. split; [lia|]. rewrite E', Em.
    apply list_lookup_insert_eq. lia.
  - unfold push in H. rewrite Em in H. ok_inv H.
    match goal with
    | H1 : set_first _ _ _ = Ok _, H2 : set_second _ _ _ = Ok _ |- _ =>
        destruct (push_store_Ok _ _ _ _ _ _ H1 H2) as [_ ->]
    end.
    injection H as _ <-.
    match goal with Hr : raise _ _ _ = Ok _ |- _ => rename Hr into R end.
    unfold raise in R. ok_inv R. cbn [nb_elem set_elements] in R.
    destruct (raise_loop_node mem _ _ _ _ (addr v, nb_elem h) (proj1 Room) R)
      as (j & Hj & Ej).
    { simpl. apply list_lookup_insert_eq. lia. }
    exists j. simpl in *. split; [lia|exact Ej].
Qed.

(** Without a [pop] in between, the pushes number the elements from 0. *)
Lemma populate_ids (mem : store) (_capacity : Z) (vs : list nat) (h0 h : Heap) :
  0 <= _capacity < 2 ^ 32 ->
  Heap_Id _capacity = Ok h0 ->
  populate mem h0 vs = Ok h ->
  forall (n : nat) (v : nat),
    vs !! n = Some v ->
    exists i, 0 <= i < nb_elem h /\
              elements h !! Z.to_nat i = Some (addr v, Z.of_nat n).
Proof.
  intros C H0 P.
  destruct (small_new mem _ _ C H0) as [S0 N0].
  pose proof (populate_nb_elem mem vs h0 h S0 P) as N.
  pose proof (run_small mem _ h0 h S0 P) as (WF & _ & N2 & _).
  rewrite N0 in N.
  destruct vs as [|a [|b [|c vs]]]; simpl in N; try lia.
  - intros n v E. destruct n; discriminate.
  - apply populate_cons in P as (r & h1 & P1 & P). injection P as <-.
    pose proof (push_keeps _ _ _ _ _ P1) as (_ & _ & _ & Room).
    destruct (push_empty _ _ _ _ _ N0 P1) as [N1 E1].
    intros [|n] v E; [|destruct n; discriminate]. injection E as <-.
    exists 0. split; [lia|]. rewrite E1. apply list_lookup_insert_eq. lia.
  - apply populate_cons in P as (r & h1 & P1 & P).
    apply populate_cons in P as (r' & h2 & P2 & P). injection P as <-.
    pose proof (push_keeps _ _ _ _ _ P1) as (_ & _ & _ & Room1).
    pose proof (push_keeps _ _ _ _ _ P2) as (_ & _ & _ & Room2).
    destruct (push_empty _ _ _ _ _ N0 P1) as [N1 E1].
    assert (E10 : elements h1 !! 0%nat = Some (addr a, 0)).
    { rewrite E1. apply list_lookup_insert_eq. lia. }
    destruct (push_one _ _ _ _ _ _ _ N1 E10 P2) as [N2' E2].
    intros [|[|n]] v E; [| |destruct n; discriminate]; injection E as <-.
    + destruct (mem b <? mem a).
      * exists 1. split; [lia|]. rewrite E2. change (Z.to_nat 1) with 1%nat. slots.
      * exists 0. split; [lia|]. rewrite E2. change (Z.to_nat 0) with 0%nat. slots.
        exact E10.
    + destruct (mem b <? mem a).
      * exists 0. split; [lia|]. rewrite E2. change (Z.to_nat 0) with 0%nat. slots.
      * exists 1. split; [lia|]. rewrite E2. change (Z.to_nat 1) with 1%nat. slots.
Qed.

(** C10 does not hold of the code as it is worded.  After a [push] and a
    [pop], the next [push], the second since the heap was built, records
    the id 0 and not 1; and after two [push], a [pop] and a third [push],
    two live elements carry the id 1. *)
Lemma push_after_pop_reuses_count :
  exists h0 h h',
    Heap_Id 2 = Ok h0 /\
    run mem0 h0 [Push 0%nat; Pop; Push 1%nat] = Ok h /\
    nb_elem h = 1 /\ elements h !! 0%nat = Some (addr 1, 0) /\
    run mem0 h0 [Push 1%nat; Push 0%nat; Pop; Push 2%nat] = Ok h' /\
    nb_elem h' = 2 /\
    elements h' !! 0%nat = Some (addr 0, 1) /\
    elements h' !! 1%nat = Some (addr 2, 1).
Proof.
  do 3 eexists.
  split; [reflexivity|]. split; [vm_compute; reflexivity|].
  do 2 (split; [reflexivity|]).
  split; [vm_compute; reflexivity|].
  do 2 (split; [reflexivity|]). reflexivity.
Qed.

(** C10, amended.  The id [push] records with an element is the number of
    elements the heap holds when [push] is called, whatever [id_free]
    holds, and [push] leaves [id_free] as it is; so, as long as no [pop]
    has been called since the heap was built, the [n]-th [push], counting
    from 0, records the id [n].  [pop] leaves [id_free] as it is. *)
Theorem push_id_is_count (mem : store) :
  (forall h v r h',
      fits h -> push mem h v = Ok (r, h') ->
      id_free h' = id_free h /\
      exists i, 0 <= i < nb_elem h' /\
                elements h' !! Z.to_nat i = Some (addr v, nb_elem h)) /\
  (forall _capacity vs h0 h (n : nat) v,
      0 <= _capacity < 2 ^ 32 ->
      Heap_Id _capacity = Ok h0 ->
      populate mem h0 vs = Ok h ->
      vs !! n = Some v ->
      exists i, 0 <= i < nb_elem h /\
                elements h !! Z.to_nat i = Some (addr v, Z.of_nat n)) /\
  (forall h a h', pop mem h = Ok (a, h') -> id_free h' = id_free h).
Proof.
  split; [|split].
  - intros h v r h' F H. split.
    + apply push_keeps in H as ((_ & _ & Fr & _) & _). exact Fr.
    + eapply push_records; eassumption.
  - intros cap vs h0 h n v C H0 P E. eapply populate_ids; eassumption.
  - intros h a h' H. apply pop_keeps in H as ((_ & _ & Fr & _) & _). exact Fr.
Qed.

Lemma push_id_is_count_witness :
  fits (set_nb_elem heap_1_5 1) /\
  exists h',
    push mem0 (set_nb_elem heap_1_5 1) 1 = Ok (None, h') /\
    id_free h' = id_free heap_1_5 /\
    exists i, 0 <= i < nb_elem h' /\ elements h' !! Z.to_nat i = Some (addr 1, 1).
Proof.
  assert (F : fits (set_nb_elem heap_1_5 1)) by (unfold fits; simpl; lia).
  assert (P : push mem0 (set_nb_elem heap_1_5 1) 1 =
              Ok (None, mkHeap 4 [(addr 3, 1); (addr 1, 1); (null, 0); (null, 0)] 2
                               [None; None; None; None] [None; None; None; None]))
    by (vm_compute; reflexivity).
  split; [exact F|]. eexists. split; [exact P|].
  exact (proj1 (push_id_is_count mem0) _ _ _ _ F P).
Defined.

(** * More of the code *)

(** ** [swap] *)

Lemma rd_cases {A : Type} (l : list A) (i : Z) :
  (exists x, rd l i = Ok x /\ 0 <= i < Z.of_nat (length l) /\
             l !! Z.to_nat i = Some x) \/
  (rd l i = Undefined /\ (i < 0 \/ Z.of_nat (length l) <= i)).
Proof.
  destruct (Z_lt_dec i 0) as [N|N].
  { right. split; [|lia]. unfold rd. replace (0 <=? i) with false by lia.
    reflexivity. }
  destruct (Z_lt_dec i (Z.of_nat (length l))) as [L|L].
  - destruct (lookup_lt_is_Some_2 l (Z.to_nat i)) as [x E]; [lia|].
    left. exists x. split; [apply rd_lookup; [lia|exact E]|]. split; [lia|exact E].
  - right. split; [apply rd_out; lia|lia].
Qed.

(** X1.  When [swap] succeeds, the two slots have exchanged their nodes,
    every other slot of the array is as it was, the array holds the same
    nodes as before, and nothing else in the heap has changed: neither
    [nb_elem], nor the capacity, nor a cell of [id_to_pos] or [id_free]. *)
Theorem swap_exchanges (h h' : Heap) (a b : Z) :
  swap h a b = Ok h' ->
  elements h' !! Z.to_nat a = elements h !! Z.to_nat b /\
  elements h' !! Z.to_nat b = elements h !! Z.to_nat a /\
  (forall i : nat, i <> Z.to_nat a -> i <> Z.to_nat b ->
                   elements h' !! i = elements h !! i) /\
  elements h' ≡ₚ elements h /\
  nb_elem h' = nb_elem h /\ capacity h' = capacity h /\
  id_to_pos h' = id_to_pos h /\ id_free h' = id_free h.
Proof.
  intros H. apply swap_inv in H as (ea & eb & Ha & Hb & Ea & Eb & ->). simpl.
  pose proof (lookup_lt_Some _ _ _ Ea) as La.
  pose proof (lookup_lt_Some _ _ _ Eb) as Lb.
  split; [|split; [|split; [|split]]].
  - rewrite list_lookup_insert_eq by (rewrite length_insert; exact La).
    symmetry. exact Eb.
  - destruct (decide (Z.to_nat a = Z.to_nat b)) as [E|E].
    + rewrite <- E. rewrite list_lookup_insert_eq by (rewrite length_insert; exact La).
      rewrite E in Ea. congruence.
    + rewrite list_lookup_insert_ne by exact E.
      rewrite list_lookup_insert_eq by exact Lb. symmetry. exact Ea.
  - intros i Na Nb. rewrite !list_lookup_insert_ne by congruence. reflexivity.
  - apply Permutation_insert_swap; assumption.
  - auto.
Qed.

Lemma swap_exchanges_witness :
  exists h',
    swap heap4 0 1 = Ok h' /\
    elements h' !! 0%nat = Some (addr 1, 1) /\
    elements h' !! 1%nat = Some (addr 2, 0) /\
    elements h' ≡ₚ elements heap4.
Proof.
  assert (S : swap heap4 0 1 =
              Ok (mkHeap 4 [(addr 1, 1); (addr 2, 0); (addr 0, 2); (addr 3, 3)] 4
                         [None; None; None; None] [None; None; None; None]))
    by (vm_compute; reflexivity).
  eexists. split; [exact S|].
  destruct (swap_exchanges _ _ _ _ S) as (E0 & E1 & _ & P & _).
  split; [exact E0|]. split; [exact E1|exact P].
Defined.

(** X2.  [swap] undoes itself: a second [swap] of the same two slots
    succeeds and gives the heap back. *)
Theorem swap_twice (h h' : Heap) (a b : Z) :
  swap h a b = Ok h' -> swap h' a b = Ok h.
Proof.
  intros H. apply swap_inv in H as (ea & eb & Ha & Hb & Ea & Eb & ->).
  pose proof (lookup_lt_Some _ _ _ Ea) as La.
  pose proof (lookup_lt_Some _ _ _ Eb) as Lb.
  assert (Ea' : <[Z.to_nat a:=eb]> (<[Z.to_nat b:=ea]> (elements h)) !! Z.to_nat a
                = Some eb).
  { apply list_lookup_insert_eq. rewrite length_insert. exact La. }
  assert (Eb' : <[Z.to_nat a:=eb]> (<[Z.to_nat b:=ea]> (elements h)) !! Z.to_nat b
                = Some ea).
  { destruct (decide (Z.to_nat a = Z.to_nat b)) as [E|E].
    - rewrite <- E in Eb |- *.
      rewrite list_lookup_insert_eq by (rewrite length_insert; exact La).
      congruence.
    - rewrite list_lookup_insert_ne by exact E.
      apply list_lookup_insert_eq. exact Lb. }
  rewrite (swap_eq _ a b eb ea); simpl; try assumption.
  destruct h as [c e n t f]. unfold set_elements. simpl in *. do 2 f_equal.
  apply list_eq. intros i.
  destruct (decide (i = Z.to_nat a)) as [->|Na].
  { rewrite list_lookup_insert_eq by (rewrite !length_insert; exact La).
    symmetry. exact Ea. }
  rewrite list_lookup_insert_ne by congruence.
  destruct (decide (i = Z.to_nat b)) as [->|Nb].
  { rewrite list_lookup_insert_eq by (rewrite !length_insert; exact Lb).
    symmetry. exact Eb. }
  rewrite !list_lookup_insert_ne by congruence. reflexivity.
Qed.

Lemma swap_twice_witness :
  exists h', swap heap4 0 1 = Ok h' /\ swap h' 0 1 = Ok heap4.
Proof.
  assert (S : swap heap4 0 1 =
              Ok (mkHeap 4 [(addr 1, 1); (addr 2, 0); (addr 0, 2); (addr 3, 3)] 4
                         [None; None; None; None] [None; None; None; None]))
    by (vm_compute; reflexivity).
  eexists. split; [exact S|]. exact (swap_twice _ _ _ _ S).
Defined.

(** X3.  The order of the two positions does not matter to [swap], whether
    it succeeds, stops on an assertion or reads out of the array. *)
Theorem swap_sym (h : Heap) (a b : Z) : swap h a b = swap h b a.
Proof.
  unfold swap.
  destruct (a <=? nb_elem h) eqn:Ca; destruct (b <=? nb_elem h) eqn:Cb;
    cbn [assert bind]; try reflexivity.
  destruct (rd_cases (elements h) a) as [(ea & Ra & Ia & Ea)|[Ra _]];
    destruct (rd_cases (elements h) b) as [(eb & Rb & Ib & Eb)|[Rb _]];
    rewrite Ra, Rb; cbn [bind]; try reflexivity.
  rewrite !wr_in by lia. cbn [bind].
  rewrite !wr_in by (rewrite length_insert; lia). cbn [bind].
  do 2 f_equal.
  destruct (decide (Z.to_nat a = Z.to_nat b)) as [E|E].
  - rewrite E in *. congruence.
  - apply list_insert_insert_ne. congruence.
Qed.

(** ** Fathers and sons *)

(** X4.  On a heap of 2 to [2^31-1] elements, asking for the father of a
    son of a live slot [i] gives [i] back when the son is below
    [nb_elem-2], and stops on the assertion of [get_pos_father] for the
    sons in the last two live slots and beyond.  For the root,
    [get_pos_father] computes [(0-1)/2] on [unsigned int]: it returns
    [2^31-1], not 0 (or stops on its assertion when [nb_elem] is 2). *)
Theorem father_of_sons (h : Heap) (i : Z) :
  2 <= nb_elem h < 2 ^ 31 -> 0 <= i < nb_elem h ->
  (let* l := get_pos_left_son h i in get_pos_father h l) =
    (if 2 * i + 1 <? nb_elem h - 2 then Ok i else Abort) /\
  (let* r := get_pos_right_son h i in get_pos_father h r) =
    (if 2 * i + 2 <? nb_elem h - 2 then Ok i else Abort) /\
  get_pos_father h 0 = (if nb_elem h =? 2 then Abort else Ok 2147483647).
Proof.
  intros N Hi. unfold get_pos_left_son, get_pos_right_son, get_pos_father.
  rewrite !(assert_true (i <? nb_elem h)) by lia. cbn [bind].
  rewrite (wrap_small (nb_elem h - 2)) by lia.
  rewrite (wrap_small (2 * i + 1)), (wrap_small (2 * i + 2)) by lia.
  split; [|split].
  - destruct (2 * i + 1 <? nb_elem h - 2); cbn [assert bind]; [|reflexivity].
    rewrite wrap_small by lia. f_equal.
    Z.to_euclidean_division_equations. lia.
  - destruct (2 * i + 2 <? nb_elem h - 2); cbn [assert bind]; [|reflexivity].
    rewrite wrap_small by lia. f_equal.
    Z.to_euclidean_division_equations. lia.
  - destruct (nb_elem h =? 2) eqn:E.
    + replace (0 <? nb_elem h - 2) with false by lia. reflexivity.
    + replace (0 <? nb_elem h - 2) with true by lia. reflexivity.
Qed.

Lemma father_of_sons_witness :
  2 <= nb_elem heap4 < 2 ^ 31 /\ 0 <= 0 < nb_elem heap4 /\
  (let* l := get_pos_left_son heap4 0 in get_pos_father heap4 l) = Ok 0 /\
  (let* r := get_pos_right_son heap4 0 in get_pos_father heap4 r) = Abort.
Proof.
  assert (N : 2 <= nb_elem heap4 < 2 ^ 31) by (simpl; lia).
  assert (Hi : 0 <= 0 < nb_elem heap4) by (simpl; lia).
  split; [exact N|]. split; [exact Hi|].
  destruct (father_of_sons heap4 0 N Hi) as (L & R & _).
  split; [exact L|exact R].
Defined.

(** ** [lt] and [le] *)

(** X5.  [lt] and [le] are each other's negation with the positions
    exchanged: when [lt] answers for [(pos_1, pos_2)], [le] answers the
    opposite for [(pos_2, pos_1)]. *)
Theorem lt_le_dual (mem : store) (h : Heap) (pos_1 pos_2 : Z) (b : bool) :
  lt mem h pos_1 pos_2 = Ok b -> le mem h pos_2 pos_1 = Ok (negb b).
Proof.
  unfold lt, le. intros H. ok_inv H. injection H as <-.
  repeat match goal with
         | Hc : (_ <? _) = true |- _ => rewrite (assert_true _ Hc); clear Hc
         | Hv : value_at _ _ _ = Ok _ |- _ => rewrite Hv; clear Hv
         end.
  cbn [bind]. f_equal. apply Z.leb_antisym.
Qed.

Lemma lt_le_dual_witness :
  lt mem0 heap4 1 0 = Ok true /\ le mem0 heap4 0 1 = Ok false.
Proof.
  assert (L : lt mem0 heap4 1 0 = Ok true) by (vm_compute; reflexivity).
  split; [exact L|]. exact (lt_le_dual mem0 heap4 1 0 true L).
Defined.

(** ** Exchanging two live slots *)

Lemma father_bounds (i : Z) : 0 < i -> 0 <= (i - 1) / 2 < i.
Proof. intros H. Z.to_euclidean_division_equations. lia. Qed.

Lemma sons_of (c pos : Z) :
  0 < c -> (c - 1) / 2 = pos -> c = 2 * pos + 1 \/ c = 2 * pos + 2.
Proof. intros H E. Z.to_euclidean_division_equations. lia. Qed.

Lemma father_of_left (pos : Z) : 0 <= pos -> (2 * pos + 1 - 1) / 2 = pos.
Proof. intros H. Z.to_euclidean_division_equations. lia. Qed.

Lemma father_of_right (pos : Z) : 0 <= pos -> (2 * pos + 2 - 1) / 2 = pos.
Proof. intros H. Z.to_euclidean_division_equations. lia. Qed.

Section Exchanged.
Variable mem : store.
Variable h : Heap.
Hypothesis WF : well_formed h.
Variables a b : Z.
Hypothesis Ha : 0 <= a < nb_elem h.
Hypothesis Hb : 0 <= b < nb_elem h.

Lemma exchanged_lookup (i : nat) :
  elements (exchanged h a b) !! i =
    if decide (i = Z.to_nat a) then elements h !! Z.to_nat b
    else if decide (i = Z.to_nat b) then elements h !! Z.to_nat a
         else elements h !! i.
Proof.
  destruct WF as (B1 & B2 & L).
  destruct (L a Ha) as (pa & ka & Ea). destruct (L b Hb) as (pb & kb & Eb).
  unfold exchanged. rewrite Ea, Eb. simpl.
  pose proof (lookup_lt_Some _ _ _ Ea) as La.
  pose proof (lookup_lt_Some _ _ _ Eb) as Lb.
  destruct (decide (i = Z.to_nat a)) as [->|Na].
  { apply list_lookup_insert_eq. rewrite length_insert. exact La. }
  rewrite list_lookup_insert_ne by congruence.
  destruct (decide (i = Z.to_nat b)) as [->|Nb].
  { apply list_lookup_insert_eq. exact Lb. }
  apply list_lookup_insert_ne. congruence.
Qed.

Lemma val_exchanged (i : Z) :
  0 <= i ->
  val mem (exchanged h a b) i =
    if i =? a then val mem h b else if i =? b then val mem h a else val mem h i.
Proof.
  intros Hi. unfold val. rewrite exchanged_lookup.
  destruct (decide (Z.to_nat i = Z.to_nat a)) as [E|E].
  { replace (i =? a) with true by lia. reflexivity. }
  replace (i =? a) with false by lia.
  destruct (decide (Z.to_nat i = Z.to_nat b)) as [E'|E'].
  { replace (i =? b) with true by lia. reflexivity. }
  replace (i =? b) with false by lia. reflexivity.
Qed.

Lemma exchanged_live_nodes : live_nodes (exchanged h a b) ≡ₚ live_nodes h.
Proof.
  destruct WF as (B1 & B2 & L).
  destruct (L a Ha) as (pa & ka & Ea). destruct (L b Hb) as (pb & kb & Eb).
  unfold live_nodes. rewrite exchanged_nb_elem.
  unfold exchanged. rewrite Ea, Eb. simpl.
  rewrite !take_insert_lt by lia.
  apply Permutation_insert_swap; rewrite lookup_take_lt by lia; assumption.
Qed.

Lemma exchanged_frame : frame h (exchanged h a b).
Proof.
  destruct WF as (B1 & B2 & L).
  destruct (L a Ha) as (pa & ka & Ea). destruct (L b Hb) as (pb & kb & Eb).
  unfold exchanged, frame. rewrite Ea, Eb. simpl. rewrite !length_insert. auto.
Qed.
End Exchanged.

(** ** [raise] on a well-formed heap *)

Section Raise.
Variable mem : store.

(** One round of the loop: the father of [pos] can be asked for only when
    [pos < nb_elem - 2]. *)
Lemma raise_loop_round (fuel : nat) (h : Heap) (pos : Z) :
  well_formed h -> 0 <= pos < nb_elem h ->
  raise_loop (S fuel) mem h pos =
    if pos >? 0 then
      if pos <? nb_elem h - 2 then
        if val mem h pos <? val mem h ((pos - 1) / 2)
        then raise_loop fuel mem (exchanged h pos ((pos - 1) / 2)) ((pos - 1) / 2)
        else Ok h
      else Abort
    else Ok h.
Proof.
  intros WF Hp. pose proof WF as (B1 & B2 & _). cbn [raise_loop].
  destruct (pos >? 0) eqn:Pos; cbn [negb]; [|reflexivity].
  pose proof (father_bounds pos ltac:(lia)) as Pf.
  rewrite (value_at_live mem h WF) by lia. cbn [bind].
  assert (F : forall g, nb_elem g = nb_elem h ->
              get_pos_father g pos =
              if pos <? nb_elem h - 2 then Ok ((pos - 1) / 2) else Abort).
  { intros g Hg. unfold get_pos_father. rewrite Hg.
    rewrite (wrap_small (nb_elem h - 2)) by lia.
    destruct (pos <? nb_elem h - 2); cbn [assert bind]; [|reflexivity].
    rewrite wrap_small by lia. reflexivity. }
  rewrite !(F h eq_refl).
  destruct (pos <? nb_elem h - 2) eqn:Lt; cbn [bind]; [|reflexivity].
  rewrite (value_at_live mem h WF) by lia. cbn [bind].
  destruct (val mem h pos <? val mem h ((pos - 1) / 2)); cbn [negb]; [|reflexivity].
  rewrite (swap_live h WF) by lia. cbn [bind].
  rewrite F by apply exchanged_nb_elem. reflexivity.
Qed.

End Raise.




(** X7.  [raise] cannot be used on the last two live slots: on a
    well-formed heap, at a live slot [pos > 0] with [pos >= nb_elem-2], it
    stops on the assertion of [get_pos_father], whatever the elements are
    worth. *)
Theorem raise_stops_near_the_end (mem : store) (h : Heap) (pos : Z) :
  well_formed h -> 0 < pos < nb_elem h -> nb_elem h - 2 <= pos ->
  raise mem h pos = Abort.
Proof.
  intros WF Hp Near. unfold raise. rewrite assert_true by lia. cbn [bind].
  rewrite raise_loop_round by (try assumption; lia).
  replace (pos >? 0) with true by lia.
  replace (pos <? nb_elem h - 2) with false by lia. reflexivity.
Qed.

Lemma raise_stops_near_the_end_witness :
  well_formed heap4 /\ 0 < 3 < nb_elem heap4 /\ nb_elem heap4 - 2 <= 3 /\
  raise mem0 heap4 3 = Abort.
Proof.
  assert (WF : well_formed heap4) by (apply well_formedb_sound; reflexivity).
  assert (Hp : 0 < 3 < nb_elem heap4) by (simpl; lia).
  assert (Near : nb_elem heap4 - 2 <= 3) by (simpl; lia).
  split; [exact WF|]. split; [exact Hp|]. split; [exact Near|].
  exact (raise_stops_near_the_end mem0 heap4 3 WF Hp Near).
Defined.

(** ** [lower] on a well-formed heap *)

Section LowerOrder.
Variable mem : store.

(** The round of [lower_loop] keeps "in order but below [pos]", moving the
    slot that is out of place to the smaller son. *)
Lemma exchanged_below (h : Heap) (pos c : Z) :
  well_formed h -> 0 <= pos < nb_elem h ->
  2 * pos + 2 < nb_elem h ->
  c = 2 * pos + 1 \/ c = 2 * pos + 2 ->
  val mem h c < val mem h pos ->
  val mem h c <= val mem h (2 * pos + 1) ->
  val mem h c <= val mem h (2 * pos + 2) ->
  ordered_but_below mem h pos ->
  ordered_but_below mem (exchanged h pos c) c.
Proof.
  intros WF Hp Hr Hc Lt Ll Lr [O1 O2].
  assert (Hcl : 0 <= c < nb_elem h) by lia.
  assert (Fc : (c - 1) / 2 = pos).
  { destruct Hc as [-> | ->]; [apply father_of_left|apply father_of_right]; lia. }
  assert (V : forall i, 0 <= i ->
              val mem (exchanged h pos c) i =
              if i =? pos then val mem h c
              else if i =? c then val mem h pos else val mem h i).
  { intros i Hi. apply val_exchanged; assumption. }
  split.
  - intros i Hi Ni. rewrite exchanged_nb_elem in Hi.
    pose proof (father_bounds i ltac:(lia)) as Qf.
    rewrite !V by lia.
    destruct (Z.eq_dec i c) as [->|Nic].
    { rewrite Fc. rewrite !Z.eqb_refl.
      replace (c =? pos) with false by lia. lia. }
    replace (i =? c) with false by lia.
    replace ((i - 1) / 2 =? c) with false by lia.
    destruct (Z.eq_dec i pos) as [->|Nip].
    { rewrite Z.eqb_refl. replace ((pos - 1) / 2 =? pos) with false by lia.
      apply (O2 c); lia. }
    replace (i =? pos) with false by lia.
    destruct (Z.eq_dec ((i - 1) / 2) pos) as [E|E].
    { rewrite E, Z.eqb_refl.
      destruct (sons_of i pos ltac:(lia) E) as [-> | ->]; assumption. }
    replace ((i - 1) / 2 =? pos) with false by lia.
    apply O1; [lia|exact E].
  - intros d Hd Ed Pc. rewrite exchanged_nb_elem in Hd.
    pose proof (father_bounds d ltac:(lia)) as Df.
    rewrite !V by lia.
    rewrite Fc, Z.eqb_refl.
    replace (d =? pos) with false by lia. replace (d =? c) with false by lia.
    pose proof (O1 d ltac:(lia) ltac:(lia)) as Od. rewrite Ed in Od. exact Od.
Qed.

Lemma lower_loop_sifts (fuel : nat) :
  forall (h h1 : Heap) (pos pos1 : Z),
    well_formed h -> 0 <= pos < nb_elem h ->
    ordered_but_below mem h pos ->
    lower_loop fuel mem h pos = Ok (h1, pos1) ->
    well_formed h1 /\ nb_elem h1 = nb_elem h /\ pos <= pos1 < nb_elem h /\
    ordered_but_below mem h1 pos1 /\
    (2 * pos1 + 2 < nb_elem h1 ->
     val mem h1 pos1 <= val mem h1 (2 * pos1 + 1) /\
     val mem h1 pos1 <= val mem h1 (2 * pos1 + 2)) /\
    live_nodes h1 ≡ₚ live_nodes h /\
    frame h h1 /\
    (forall i : nat, (i < Z.to_nat pos)%nat -> elements h1 !! i = elements h !! i).
Proof.
  induction fuel as [|fuel IH]; intros h h1 pos pos1 WF Hp O H; [discriminate|].
  rewrite lower_loop_round in H by assumption.
  destruct (2 * pos + 2 <? nb_elem h) eqn:Er; cbn [andb] in H.
  2: { injection H as <- <-. split; [exact WF|]. split; [reflexivity|].
       split; [lia|]. split; [exact O|]. split; [lia|].
       split; [reflexivity|]. split; [apply frame_refl|reflexivity]. }
  destruct ((val mem h pos >? val mem h (2 * pos + 1)) ||
            (val mem h pos >? val mem h (2 * pos + 2))) eqn:G.
  2: { injection H as <- <-. apply orb_false_iff in G as [G1 G2].
       split; [exact WF|]. split; [reflexivity|].
       split; [lia|]. split; [exact O|]. split; [lia|].
       split; [reflexivity|]. split; [apply frame_refl|reflexivity]. }
  apply orb_true_iff in G.
  assert (Step : forall c, c = 2 * pos + 1 \/ c = 2 * pos + 2 ->
                 val mem h c < val mem h pos ->
                 val mem h c <= val mem h (2 * pos + 1) ->
                 val mem h c <= val mem h (2 * pos + 2) ->
                 lower_loop fuel mem (exchanged h pos c) c = Ok (h1, pos1) ->
                 well_formed h1 /\ nb_elem h1 = nb_elem h /\ pos <= pos1 < nb_elem h /\
                 ordered_but_below mem h1 pos1 /\
                 (2 * pos1 + 2 < nb_elem h1 ->
                  val mem h1 pos1 <= val mem h1 (2 * pos1 + 1) /\
                  val mem h1 pos1 <= val mem h1 (2 * pos1 + 2)) /\
                 live_nodes h1 ≡ₚ live_nodes h /\
                 frame h h1 /\
                 (forall i : nat, (i < Z.to_nat pos)%nat ->
                                  elements h1 !! i = elements h !! i)).
  { intros c Hc Lt Ll Lr R.
    assert (Hcl : 0 <= c < nb_elem h) by lia.
    pose proof (exchanged_well_formed h WF pos c Hp Hcl) as W1.
    pose proof (exchanged_nb_elem h pos c) as N1.
    destruct (IH (exchanged h pos c) h1 c pos1 W1) as (W & N & P & O' & X & Pm & F & K).
    - lia.
    - apply exchanged_below; try assumption; lia.
    - exact R.
    - split; [exact W|]. split; [congruence|]. split; [lia|]. split; [exact O'|].
      split; [exact X|]. split; [|split].
      + rewrite Pm. apply exchanged_live_nodes; assumption.
      + eapply frame_trans; [apply (exchanged_frame h WF pos c Hp Hcl)|exact F].
      + intros i Hi. rewrite K by lia. rewrite exchanged_lookup by assumption.
        destruct (decide (i = Z.to_nat pos)); [lia|].
        destruct (decide (i = Z.to_nat c)); [lia|]. reflexivity. }
  destruct (val mem h (2 * pos + 1) <=? val mem h (2 * pos + 2)) eqn:C.
  - apply (Step (2 * pos + 1)); [left; reflexivity|lia|lia|lia|exact H].
  - apply (Step (2 * pos + 2)); [right; reflexivity|lia|lia|lia|exact H].
Qed.

Lemma lower_sifts (h : Heap) (pos : Z) :
  well_formed h -> 0 <= pos < nb_elem h ->
  ordered_but_below mem h pos ->
  exists h',
    lower mem h pos = Ok h' /\
    well_formed h' /\ nb_elem h' = nb_elem h /\
    heap_ordered mem h' /\
    live_nodes h' ≡ₚ live_nodes h /\
    frame h h' /\
    (forall i : nat, (i < Z.to_nat pos)%nat -> elements h' !! i = elements h !! i).
Proof.
  intros WF Hp O.
  destruct (lower_unfold mem h pos WF Hp) as (h1 & pos1 & E & _ & _ & _ & L).
  destruct (lower_loop_sifts _ _ _ _ _ WF Hp O E)
    as (W1 & N1 & P1 & [O1 O2] & X & Pm & F & K).
  rewrite L. clear L E.
  assert (Hp1 : 0 <= pos1 < nb_elem h1) by lia.
  destruct ((2 * pos1 + 1 =? nb_elem h1 - 1) &&
            (val mem h1 (2 * pos1 + 1) <? val mem h1 pos1)) eqn:C.
  - apply andb_prop in C as [Cl Cv].
    set (l := 2 * pos1 + 1) in *.
    assert (Hl : 0 <= l < nb_elem h1) by lia.
    assert (Fl : (l - 1) / 2 = pos1) by (apply father_of_left; lia).
    assert (V : forall i, 0 <= i ->
                val mem (exchanged h1 pos1 l) i =
                if i =? pos1 then val mem h1 l
                else if i =? l then val mem h1 pos1 else val mem h1 i).
    { intros i Hi. apply val_exchanged; assumption. }
    exists (exchanged h1 pos1 l). split; [reflexivity|].
    split; [apply exchanged_well_formed; assumption|].
    split; [rewrite exchanged_nb_elem; exact N1|].
    split; [|split; [|split]].
    + intros i Hi. rewrite exchanged_nb_elem in Hi.
      pose proof (father_bounds i ltac:(lia)) as Qf.
      rewrite !V by lia.
      destruct (Z.eq_dec i l) as [->|Nil].
      { rewrite Fl, !Z.eqb_refl. replace (l =? pos1) with false by lia. lia. }
      replace (i =? l) with false by lia.
      assert (Nq : (i - 1) / 2 <> l).
      { intros E. destruct (sons_of i l ltac:(lia) E); lia. }
      replace ((i - 1) / 2 =? l) with false by lia.
      destruct (Z.eq_dec i pos1) as [->|Nip].
      { rewrite Z.eqb_refl. replace ((pos1 - 1) / 2 =? pos1) with false by lia.
        apply (O2 l); lia. }
      replace (i =? pos1) with false by lia.
      assert (Nq' : (i - 1) / 2 <> pos1).
      { intros E. destruct (sons_of i pos1 ltac:(lia) E); lia. }
      replace ((i - 1) / 2 =? pos1) with false by lia.
      apply O1; [lia|exact Nq'].
    + rewrite <- Pm. apply exchanged_live_nodes; assumption.
    + eapply frame_trans; [exact F|apply (exchanged_frame h1 W1 pos1 l Hp1 Hl)].
    + intros i Hi. rewrite exchanged_lookup by assumption.
      destruct (decide (i = Z.to_nat pos1)); [lia|].
      destruct (decide (i = Z.to_nat l)); [lia|]. apply K. exact Hi.
  - exists h1. split; [reflexivity|]. split; [exact W1|]. split; [exact N1|].
    split; [|split; [exact Pm|split; [exact F|exact K]]].
    intros i Hi.
    destruct (Z.eq_dec ((i - 1) / 2) pos1) as [E|E]; [|apply O1; assumption].
    rewrite E.
    apply andb_false_iff in C.
    destruct (Z_lt_dec (2 * pos1 + 2) (nb_elem h1)) as [R|R].
    + destruct (X R) as [Xl Xr].
      destruct (sons_of i pos1 ltac:(lia) E) as [-> | ->]; assumption.
    + destruct (sons_of i pos1 ltac:(lia) E) as [-> | ->]; [|lia].
      destruct C as [C|C]; lia.
Qed.
End LowerOrder.

(** X8.  [lower] does its job.  On a well-formed heap, at a live slot, when
    the heap is in order but for that slot and its sons, [lower] succeeds
    and leaves a heap in order; the live slots hold the same nodes as
    before, the slots below [pos] are as they were, and [nb_elem], the
    capacity and the id tables are unchanged. *)
Theorem lower_restores_order (mem : store) (h : Heap) (pos : Z) :
  well_formed h -> 0 <= pos < nb_elem h ->
  ordered_but_below mem h pos ->
  exists h',
    lower mem h pos = Ok h' /\
    well_formed h' /\ nb_elem h' = nb_elem h /\
    heap_ordered mem h' /\
    live_nodes h' ≡ₚ live_nodes h /\
    frame h h' /\
    (forall i : nat, (i < Z.to_nat pos)%nat -> elements h' !! i = elements h !! i).
Proof. apply lower_sifts. Qed.

Lemma heap_8_1_5_3_below : ordered_but_below mem0 heap_8_1_5_3 0.
Proof.
  split.
  - intros i Hi Ni. simpl in Hi.
    assert (C : i = 1 \/ i = 2 \/ i = 3) by lia.
    destruct C as [-> | [-> | ->]]; try (vm_compute; discriminate).
    + exfalso. apply Ni. reflexivity.
    + exfalso. apply Ni. reflexivity.
  - intros c Hc Ec Pc. lia.
Qed.

Lemma lower_restores_order_witness :
  well_formed heap_8_1_5_3 /\ 0 <= 0 < nb_elem heap_8_1_5_3 /\
  ordered_but_below mem0 heap_8_1_5_3 0 /\
  exists h', lower mem0 heap_8_1_5_3 0 = Ok h' /\ heap_ordered mem0 h'.
Proof.
  assert (WF : well_formed heap_8_1_5_3) by (apply well_formedb_sound; reflexivity).
  assert (Hp : 0 <= 0 < nb_elem heap_8_1_5_3) by (simpl; lia).
  split; [exact WF|]. split; [exact Hp|]. split; [exact heap_8_1_5_3_below|].
  destruct (lower_restores_order mem0 heap_8_1_5_3 0 WF Hp heap_8_1_5_3_below)
    as (h' & L & _ & _ & O & _).
  exists h'. split; [exact L|exact O].
Defined.

(** ** What [lower] keeps, whatever the order *)

Lemma lower_loop_permutes (mem : store) (fuel : nat) :
  forall (h h1 : Heap) (pos pos1 : Z),
    well_formed h -> 0 <= pos < nb_elem h ->
    lower_loop fuel mem h pos = Ok (h1, pos1) ->
    well_formed h1 /\ nb_elem h1 = nb_elem h /\ pos <= pos1 < nb_elem h /\
    live_nodes h1 ≡ₚ live_nodes h /\ frame h h1.
Proof.
  induction fuel as [|fuel IH]; intros h h1 pos pos1 WF Hp H; [discriminate|].
  rewrite lower_loop_round in H by assumption.
  assert (Stay : Ok (h, pos) = Ok (h1, pos1) ->
                 well_formed h1 /\ nb_elem h1 = nb_elem h /\
                 pos <= pos1 < nb_elem h /\
                 live_nodes h1 ≡ₚ live_nodes h /\ frame h h1).
  { intros E. injection E as <- <-. split; [exact WF|]. split; [reflexivity|].
    split; [lia|]. split; [reflexivity|apply frame_refl]. }
  destruct (2 * pos + 2 <? nb_elem h) eqn:Er; cbn [andb] in H; [|exact (Stay H)].
  destruct ((val mem h pos >? val mem h (2 * pos + 1)) ||
            (val mem h pos >? val mem h (2 * pos + 2))); [|exact (Stay H)].
  assert (Step : forall c, 0 <= c < nb_elem h -> pos < c ->
                 lower_loop fuel mem (exchanged h pos c) c = Ok (h1, pos1) ->
                 well_formed h1 /\ nb_elem h1 = nb_elem h /\
                 pos <= pos1 < nb_elem h /\
                 live_nodes h1 ≡ₚ live_nodes h /\ frame h h1).
  { intros c Hc Lt R.
    pose proof (exchanged_well_formed h WF pos c Hp Hc) as W1.
    pose proof (exchanged_nb_elem h pos c) as N1.
    destruct (IH (exchanged h pos c) h1 c pos1 W1) as (W & N & P & Pm & F);
      [lia|exact R|].
    split; [exact W|]. split; [congruence|]. split; [lia|]. split.
    - rewrite Pm. apply exchanged_live_nodes; assumption.
    - eapply frame_trans; [apply (exchanged_frame h WF pos c Hp Hc)|exact F]. }
  destruct (val mem h (2 * pos + 1) <=? val mem h (2 * pos + 2)).
  - apply (Step (2 * pos + 1)); [lia|lia|exact H].
  - apply (Step (2 * pos + 2)); [lia|lia|exact H].
Qed.

(** On a well-formed heap and at a live slot [lower] returns, and the live
    slots hold the same nodes as before. *)
Lemma lower_permutes (mem : store) (h : Heap) (pos : Z) :
  well_formed h -> 0 <= pos < nb_elem h ->
  exists h',
    lower mem h pos = Ok h' /\
    well_formed h' /\ nb_elem h' = nb_elem h /\
    live_nodes h' ≡ₚ live_nodes h /\ frame h h'.
Proof.
  intros WF Hp.
  destruct (lower_unfold mem h pos WF Hp) as (h1 & pos1 & E & _ & _ & _ & L).
  destruct (lower_loop_permutes mem _ _ _ _ _ WF Hp E) as (W1 & N1 & P1 & Pm & F).
  rewrite L. clear L E.
  assert (Hp1 : 0 <= pos1 < nb_elem h1) by lia.
  destruct ((2 * pos1 + 1 =? nb_elem h1 - 1) &&
            (val mem h1 (2 * pos1 + 1) <? val mem h1 pos1)) eqn:C.
  - apply andb_prop in C as [Cl _].
    assert (Hl : 0 <= 2 * pos1 + 1 < nb_elem h1) by lia.
    exists (exchanged h1 pos1 (2 * pos1 + 1)). split; [reflexivity|].
    split; [apply exchanged_well_formed; assumption|].
    split; [rewrite exchanged_nb_elem; exact N1|]. split.
    + rewrite <- Pm. apply exchanged_live_nodes; assumption.
    + eapply frame_trans; [exact F|apply (exchanged_frame h1 W1 _ _ Hp1 Hl)].
  - exists h1. split; [reflexivity|]. split; [exact W1|]. split; [exact N1|].
    split; [exact Pm|exact F].
Qed.

(** ** [pop] on a heap in order *)

Lemma root_is_least (mem : store) (h : Heap) :
  heap_ordered mem h ->
  forall i, 0 <= i < nb_elem h -> val mem h 0 <= val mem h i.
Proof.
  intros O.
  assert (G : forall n : nat, forall i, 0 <= i < nb_elem h -> (Z.to_nat i <= n)%nat ->
              val mem h 0 <= val mem h i).
  { induction n as [|n IH]; intros i Hi Hn.
    - assert (i = 0) as -> by lia. lia.
    - destruct (Z.eq_dec i 0) as [->|N]; [lia|].
      pose proof (father_bounds i ltac:(lia)) as F.
      pose proof (O i ltac:(lia)) as Oi.
      pose proof (IH ((i - 1) / 2) ltac:(lia) ltac:(lia)). lia. }
  intros i Hi. apply (G (Z.to_nat i)); [exact Hi|lia].
Qed.

(** [pop], step by step: the root node is put aside, the last live node
    takes its place, and [lower] is called when more than two elements
    remain. *)
Lemma pop_unfold (mem : store) (h : Heap) :
  well_formed h -> 0 < nb_elem h ->
  exists a k last,
    elements h !! 0%nat = Some (addr a, k) /\
    elements h !! Z.to_nat (nb_elem h - 1) = Some last /\
    let h1 := set_nb_elem (set_elements h (<[0%nat := last]> (elements h)))
                          (nb_elem h - 1) in
    well_formed h1 /\
    (addr a, k) :: live_nodes h1 ≡ₚ live_nodes h /\
    (forall i, 0 < i < nb_elem h - 1 -> val mem h1 i = val mem h i) /\
    val mem h1 0 = val mem h (nb_elem h - 1) /\
    frame h h1 /\
    pop mem h =
      if nb_elem h - 1 >? 2
      then let* h2 := lower mem h1 0 in Ok (a, h2)
      else Ok (a, h1).
Proof.
  intros WF N. pose proof WF as (B1 & B2 & L).
  destruct (L 0) as (a & k & E0); [lia|].
  destruct (L (nb_elem h - 1)) as (b & j & El); [lia|].
  change (Z.to_nat 0) with 0%nat in E0.
  exists a, k, (addr b, j). split; [exact E0|]. split; [exact El|].
  cbv zeta.
  set (h1 := set_nb_elem (set_elements h (<[0%nat := (addr b, j)]> (elements h)))
                         (nb_elem h - 1)).
  assert (Len : (0 < length (elements h))%nat) by (apply lookup_lt_Some in E0; exact E0).
  split; [|split; [|split; [|split; [|split]]]].
  - unfold well_formed, h1. simpl. rewrite length_insert.
    split; [lia|]. split; [lia|]. intros i Hi.
    destruct (decide (Z.to_nat i = 0%nat)) as [->|Ni].
    + rewrite list_lookup_insert_eq by lia. eauto.
    + rewrite list_lookup_insert_ne by congruence. apply L. lia.
  - unfold live_nodes, h1. simpl.
    replace (Z.to_nat (nb_elem h)) with (S (Z.to_nat (nb_elem h - 1))) by lia.
    rewrite (take_S_r _ _ _ El).
    destruct (Z.to_nat (nb_elem h - 1)) as [|m] eqn:Em.
    + simpl. rewrite E0 in El. injection El as <- <-. reflexivity.
    + destruct (elements h) as [|e0 e']; [discriminate|].
      simpl in E0. injection E0 as ->. simpl.
      apply perm_skip. apply Permutation_cons_append.
  - intros i Hi. unfold val, h1. simpl.
    rewrite list_lookup_insert_ne by lia. reflexivity.
  - unfold val, h1. simpl. rewrite list_lookup_insert_eq by lia.
    rewrite El. reflexivity.
  - unfold frame, h1. simpl. rewrite length_insert. auto.
  - unfold pop.
    rewrite (rd_lookup _ 0 (addr a, k)) by (try lia; exact E0). cbn [bind].
    rewrite (wrap_small (nb_elem h - 1)) by lia.
    rewrite (rd_lookup _ _ (addr b, j)) by (try lia; exact El). cbn [bind].
    rewrite wr_in by lia. cbn [bind]. change (Z.to_nat 0) with 0%nat.
    fold h1. cbn [nb_elem set_nb_elem h1].
    destruct (nb_elem h - 1 >? 2); cbn [bind fst]; [|reflexivity].
    destruct (lower mem h1 0); reflexivity.
Qed.

(** C7, amended.  On a well-formed heap that is not empty, [pop] succeeds
    and returns (a reference to) the removed element: the element of the
    node held by slot 0, which is taken out of the heap.  The heap it leaves
    is well-formed, has one element less, and its live nodes are the former
    live nodes without that node; the capacity and the id tables are
    unchanged. *)
Theorem pop_returns_root (mem : store) (h : Heap) :
  well_formed h -> 0 < nb_elem h ->
  exists a k h',
    elements h !! 0%nat = Some (addr a, k) /\
    pop mem h = Ok (a, h') /\
    nb_elem h' = nb_elem h - 1 /\
    well_formed h' /\
    (addr a, k) :: live_nodes h' ≡ₚ live_nodes h /\
    frame h h'.
Proof.
  intros WF N.
  destruct (pop_unfold mem h WF N)
    as (a & k & last & E0 & El & W1 & Pm & _ & _ & F & P).
  set (h1 := set_nb_elem (set_elements h (<[0%nat := last]> (elements h)))
                         (nb_elem h - 1)) in *.
  exists a, k.
  destruct (nb_elem h - 1 >? 2) eqn:G.
  - destruct (lower_permutes mem h1 0 W1) as (h2 & L & W2 & N2 & Pm2 & F2).
    { unfold h1. simpl. lia. }
    exists h2. rewrite P, L. split; [exact E0|]. split; [reflexivity|].
    split; [rewrite N2; reflexivity|]. split; [exact W2|].
    split; [rewrite Pm2; exact Pm|]. eapply frame_trans; eassumption.
  - exists h1. rewrite P. split; [exact E0|]. split; [reflexivity|].
    split; [reflexivity|]. split; [exact W1|]. split; [exact Pm|exact F].
Qed.

Lemma pop_returns_root_witness :
  well_formed heap4 /\ 0 < nb_elem heap4 /\
  exists h',
    pop mem0 heap4 = Ok (2%nat, h') /\ nb_elem h' = 3 /\
    (addr 2, 0) :: live_nodes h' ≡ₚ live_nodes heap4.
Proof.
  assert (WF : well_formed heap4) by (apply well_formedb_sound; reflexivity).
  assert (N : 0 < nb_elem heap4) by (simpl; lia).
  split; [exact WF|]. split; [exact N|].
  destruct (pop_returns_root mem0 heap4 WF N) as (a & k & h' & E & P & N' & _ & Pm & _).
  injection E as <- <-. exists h'. split; [exact P|]. split; [exact N'|exact Pm].
Defined.

(** X9.  Away from three elements, [pop] keeps a heap in order.  On a
    well-formed heap in order that holds one, two, or four elements and
    more, [pop] succeeds, returns the element of the root, which no live
    element is worth less than, and leaves a well-formed heap in order that
    holds the other live nodes; the capacity and the id tables are
    unchanged. *)
Theorem pop_keeps_order (mem : store) (h : Heap) :
  well_formed h -> heap_ordered mem h ->
  0 < nb_elem h -> nb_elem h <> 3 ->
  exists a k h',
    elements h !! 0%nat = Some (addr a, k) /\
    pop mem h = Ok (a, h') /\
    (forall i, 0 <= i < nb_elem h -> mem a <= val mem h i) /\
    well_formed h' /\ nb_elem h' = nb_elem h - 1 /\
    heap_ordered mem h' /\
    (addr a, k) :: live_nodes h' ≡ₚ live_nodes h /\
    frame h h'.
Proof.
  intros WF O N N3.
  destruct (pop_unfold mem h WF N)
    as (a & k & last & E0 & El & W1 & Pm & V & V0 & F & P).
  set (h1 := set_nb_elem (set_elements h (<[0%nat := last]> (elements h)))
                         (nb_elem h - 1)) in *.
  assert (Min : forall i, 0 <= i < nb_elem h -> mem a <= val mem h i).
  { intros i Hi. pose proof (root_is_least mem h O i Hi) as R.
    unfold val at 1 in R. change (Z.to_nat 0) with 0%nat in R.
    rewrite E0 in R. exact R. }
  exists a, k.
  destruct (nb_elem h - 1 >? 2) eqn:G.
  - destruct (lower_sifts mem h1 0 W1) as (h2 & L & W2 & N2 & O2 & Pm2 & F2 & _).
    { unfold h1. simpl. lia. }
    { split; [|intros c _ _ Hc; lia].
      intros i Hi Ni. unfold h1 in Hi. simpl in Hi.
      pose proof (father_bounds i ltac:(lia)) as Qf.
      rewrite !V by lia. apply O. lia. }
    exists h2. rewrite P, L. split; [exact E0|]. split; [reflexivity|].
    split; [exact Min|]. split; [exact W2|]. split; [rewrite N2; reflexivity|].
    split; [exact O2|]. split; [rewrite Pm2; exact Pm|].
    eapply frame_trans; eassumption.
  - exists h1. rewrite P. split; [exact E0|]. split; [reflexivity|].
    split; [exact Min|]. split; [exact W1|]. split; [reflexivity|].
    split; [|split; [exact Pm|exact F]].
    intros i Hi. unfold h1 in Hi. simpl in Hi. lia.
Qed.

Lemma heap_1_3_5_8_ordered : heap_ordered mem0 heap_1_3_5_8.
Proof.
  intros i Hi. simpl in Hi.
  assert (C : i = 1 \/ i = 2 \/ i = 3) by lia.
  destruct C as [-> | [-> | ->]]; vm_compute; discriminate.
Qed.

Lemma pop_keeps_order_witness :
  well_formed heap_1_3_5_8 /\ heap_ordered mem0 heap_1_3_5_8 /\
  0 < nb_elem heap_1_3_5_8 /\ nb_elem heap_1_3_5_8 <> 3 /\
  exists h', pop mem0 heap_1_3_5_8 = Ok (3%nat, h') /\ heap_ordered mem0 h'.
Proof.
  assert (WF : well_formed heap_1_3_5_8) by (apply well_formedb_sound; reflexivity).
  assert (N : 0 < nb_elem heap_1_3_5_8) by (simpl; lia).
  assert (N3 : nb_elem heap_1_3_5_8 <> 3) by (simpl; lia).
  split; [exact WF|]. split; [exact heap_1_3_5_8_ordered|].
  split; [exact N|]. split; [exact N3|].
  destruct (pop_keeps_order mem0 heap_1_3_5_8 WF heap_1_3_5_8_ordered N N3)
    as (a & k & h' & E & P & _ & _ & _ & O & _).
  injection E as <- _. exists h'. split; [exact P|exact O].
Defined.

(** X10.  With three elements, [pop] does not call [lower] (its test is
    [nb_elem>2] after the decrement): it succeeds and leaves the last node
    at the root, above the node of slot 1, without comparing them.  The
    heap it leaves is in order exactly when the element of slot 2 was worth
    no more than the element of slot 1. *)
Theorem pop_of_three (mem : store) (h : Heap) :
  well_formed h -> nb_elem h = 3 ->
  exists a k h',
    elements h !! 0%nat = Some (addr a, k) /\
    pop mem h = Ok (a, h') /\
    nb_elem h' = 2 /\
    elements h' !! 0%nat = elements h !! 2%nat /\
    elements h' !! 1%nat = elements h !! 1%nat /\
    (heap_ordered mem h' <-> val mem h 2 <= val mem h 1).
Proof.
  intros WF N.
  destruct (pop_unfold mem h WF ltac:(lia))
    as (a & k & last & E0 & El & W1 & Pm & V & V0 & F & P).
  rewrite N in *. change (Z.to_nat (3 - 1)) with 2%nat in El.
  change (3 - 1 >? 2) with false in P.
  exists a, k. eexists. split; [exact E0|]. split; [exact P|].
  split; [reflexivity|]. simpl.
  pose proof (lookup_lt_Some _ _ _ E0) as L0.
  split; [rewrite list_lookup_insert_eq by exact L0; symmetry; exact El|].
  split; [apply list_lookup_insert_ne; discriminate|].
  change (3 - 1) with 2 in *.
  split.
  - intros O. specialize (O 1). simpl in O.
    change ((1 - 1) / 2) with 0 in O. rewrite V0, V in O by lia. apply O. lia.
  - intros Le i Hi. simpl in Hi. assert (i = 1) as -> by lia.
    change ((1 - 1) / 2) with 0. rewrite V0, V by lia. exact Le.
Qed.

Lemma pop_of_three_witness :
  well_formed heap_1_3_5 /\ nb_elem heap_1_3_5 = 3 /\
  exists h', pop mem0 heap_1_3_5 = Ok (3%nat, h') /\ ~ heap_ordered mem0 h'.
Proof.
  assert (WF : well_formed heap_1_3_5) by (apply well_formedb_sound; reflexivity).
  assert (N : nb_elem heap_1_3_5 = 3) by reflexivity.
  split; [exact WF|]. split; [exact N|].
  destruct (pop_of_three mem0 heap_1_3_5 WF N) as (a & k & h' & E & P & _ & _ & _ & I).
  injection E as <- _. exists h'. split; [exact P|].
  intros O. apply I in O. vm_compute in O. apply O. reflexivity.
Defined.

(** ** [push], and [push] followed by [pop] *)

Lemma push_empty_eq (mem : store) (h : Heap) (v : nat) :
  nb_elem h = 0 -> (0 < length (elements h))%nat ->
  push mem h v =
    Ok (None, set_nb_elem (set_elements h (<[0%nat := (addr v, 0)]> (elements h))) 1).
Proof.
  intros N L. unfold push, is_empty. rewrite N. cbn [Z.eqb].
  destruct (push_store_in (elements h) 0 (addr v) 0) as (l1 & S1 & S2); [lia|].
  rewrite S1. cbn [bind]. rewrite S2. cbn [bind nb_elem set_elements].
  rewrite N. reflexivity.
Qed.

(** X11.  A heap of two elements or more cannot grow: [push] stops on the
    assertion of [get_pos_father] when a slot is free, and assigns past the
    end of the array when none is. *)
Theorem push_never_beyond_two (mem : store) (h : Heap) (v : nat) :
  fits h -> 2 <= nb_elem h ->
  push mem h v =
    if nb_elem h <? Z.of_nat (length (elements h)) then Abort else Undefined.
Proof.
  intros F N. unfold fits in F.
  destruct (nb_elem h <? Z.of_nat (length (elements h))) eqn:Room.
  - apply push_two_or_more; lia.
  - assert (S1 : set_first (elements h) (nb_elem h) (addr v) = Undefined).
    { unfold set_first. rewrite rd_out by lia. reflexivity. }
    unfold push. rewrite S1. destruct (is_empty h); reflexivity.
Qed.

Lemma push_never_beyond_two_witness :
  fits heap_1_5 /\ 2 <= nb_elem heap_1_5 /\ push mem0 heap_1_5 2 = Abort.
Proof.
  assert (F : fits heap_1_5) by (unfold fits; simpl; lia).
  assert (N : 2 <= nb_elem heap_1_5) by (simpl; lia).
  split; [exact F|]. split; [exact N|].
  exact (push_never_beyond_two mem0 heap_1_5 2 F N).
Defined.

(** X12.  What a run can reach.  After any sequence of public calls that
    runs to its end from a new heap, the heap holds at most two elements
    and at most [capacity] of them, its capacity and the size of its array
    are the ones given to the constructor, and no cell of [id_free] or of
    [id_to_pos] has been assigned. *)
Theorem run_bounds (mem : store) (_capacity : Z) (cs : list call) (h0 h : Heap) :
  0 <= _capacity < 2 ^ 32 ->
  Heap_Id _capacity = Ok h0 ->
  run mem h0 cs = Ok h ->
  0 <= nb_elem h <= 2 /\ nb_elem h <= capacity h /\
  capacity h = _capacity /\
  Z.of_nat (length (elements h)) = _capacity /\
  id_free h = replicate (Z.to_nat _capacity) None /\
  id_to_pos h = replicate (Z.to_nat _capacity) None.
Proof.
  intros C H0 R.
  destruct (small_new mem _ _ C H0) as [S0 _].
  pose proof (run_small mem cs h0 h S0 R) as ((B & _) & _ & N & _).
  pose proof (run_keeps mem cs _ _ R) as (Fc & Ft & Ff & Fl).
  rewrite Heap_Id_eq in H0. injection H0 as <-. simpl in *.
  rewrite length_replicate in Fl.
  split; [lia|]. split; [lia|]. split; [exact Fc|]. split; [lia|].
  split; assumption.
Qed.

Lemma run_bounds_witness :
  0 <= 4 < 2 ^ 32 /\
  run mem0 (mkHeap 4 (replicate 4 (null, 0)) 0 (replicate 4 None) (replicate 4 None))
      [Push 0%nat; Push 1%nat; Pop; Reposition 0; Push 3%nat] = Ok heap_1_5 /\
  0 <= nb_elem heap_1_5 <= 2 /\ capacity heap_1_5 = 4.
Proof.
  assert (C : 0 <= 4 < 2 ^ 32) by lia.
  assert (R : run mem0 (mkHeap 4 (replicate 4 (null, 0)) 0 (replicate 4 None)
                               (replicate 4 None))
                  [Push 0%nat; Push 1%nat; Pop; Reposition 0; Push 3%nat]
              = Ok heap_1_5) by (vm_compute; reflexivity).
  split; [exact C|]. split; [exact R|].
  destruct (run_bounds mem0 4 _ _ heap_1_5 C (Heap_Id_eq 4) R) as (N & _ & Cp & _).
  split; [exact N|exact Cp].
Defined.

(** X13.  If [push] on an empty heap returns, a [pop] that follows gives
    the pushed element back and leaves the heap empty; the node stays in
    slot 0, which is no longer live. *)
Theorem push_then_pop_on_empty (mem : store) (h h1 : Heap) (v : nat)
        (r : option Z) :
  nb_elem h = 0 -> push mem h v = Ok (r, h1) ->
  exists h2,
    pop mem h1 = Ok (v, h2) /\
    nb_elem h2 = 0 /\
    elements h2 = <[0%nat := (addr v, 0)]> (elements h).
Proof.
  intros N P.
  pose proof (push_keeps _ _ _ _ _ P) as (_ & _ & _ & Room).
  destruct (push_empty _ _ _ _ _ N P) as [N1 E1].
  unfold pop. rewrite N1, E1. change (wrap (1 - 1)) with 0.
  rewrite (rd_lookup _ 0 (addr v, 0)); [|lia|apply list_lookup_insert_eq; lia].
  cbn [bind]. rewrite wr_in by (rewrite length_insert; lia). cbn [bind].
  cbn [nb_elem set_nb_elem set_elements].
  change (0 >? 2) with false. cbn [bind fst]. change (Z.to_nat 0) with 0%nat.
  eexists. split; [reflexivity|]. split; [reflexivity|].
  cbn [elements set_nb_elem set_elements]. apply list_insert_insert_eq.
Qed.

Lemma push_then_pop_on_empty_witness :
  nb_elem (set_nb_elem heap_1_5 0) = 0 /\
  exists h1 h2,
    push mem0 (set_nb_elem heap_1_5 0) 2 = Ok (None, h1) /\
    pop mem0 h1 = Ok (2%nat, h2) /\ nb_elem h2 = 0.
Proof.
  assert (N : nb_elem (set_nb_elem heap_1_5 0) = 0) by reflexivity.
  assert (P : push mem0 (set_nb_elem heap_1_5 0) 2 =
              Ok (None, mkHeap 4 [(addr 2, 0); (addr 0, 0); (null, 0); (null, 0)] 1
                               [None; None; None; None] [None; None; None; None]))
    by (vm_compute; reflexivity).
  split; [exact N|]. eexists.
  destruct (push_then_pop_on_empty mem0 _ _ 2 None N P) as (h2 & Q & N2 & _).
  exists h2. split; [exact P|]. split; [exact Q|exact N2].
Defined.

(** X14.  If [push] on a heap of one element returns, a [pop] that follows
    gives back the smaller of the new element and the old one (the old one
    when they are worth the same) and leaves the other at the root of a
    one-element heap. *)
Theorem push_then_pop_on_one (mem : store) (h h1 : Heap) (v a : nat) (k : Z)
        (r : option Z) :
  nb_elem h = 1 -> elements h !! 0%nat = Some (addr a, k) ->
  push mem h v = Ok (r, h1) ->
  exists h2,
    pop mem h1 = Ok ((if mem v <? mem a then v else a), h2) /\
    nb_elem h2 = 1 /\
    elements h2 !! 0%nat =
      Some (if mem v <? mem a then (addr a, k) else (addr v, 1)).
Proof.
  intros N E0 P.
  pose proof (push_keeps _ _ _ _ _ P) as (_ & _ & _ & Room).
  destruct (push_one _ _ _ _ _ _ _ N E0 P) as [N1 E1].
  unfold pop. rewrite N1, E1. change (wrap (2 - 1)) with 1.
  cbn [nb_elem set_nb_elem set_elements]. change (1 >? 2) with false.
  destruct (mem v <? mem a).
  - rewrite (rd_lookup _ 0 (addr v, 1)); [|lia|slots].
    cbn [bind].
    rewrite (rd_lookup _ 1 (addr a, k)); [|lia|slots].
    cbn [bind]. rewrite wr_in by (rewrite !length_insert; lia).
    cbn [bind fst]. eexists. split; [reflexivity|]. split; [reflexivity|].
    cbn [elements set_nb_elem set_elements]. change (Z.to_nat 0) with 0%nat. slots.
  - rewrite (rd_lookup _ 0 (addr a, k)); [|lia|slots; exact E0].
    cbn [bind].
    rewrite (rd_lookup _ 1 (addr v, 1)); [|lia|slots].
    cbn [bind]. rewrite wr_in by (rewrite !length_insert; lia).
    cbn [bind fst]. eexists. split; [reflexivity|]. split; [reflexivity|].
    cbn [elements set_nb_elem set_elements]. change (Z.to_nat 0) with 0%nat. slots.
Qed.

Lemma push_then_pop_on_one_witness :
  nb_elem (set_nb_elem heap_1_5 1) = 1 /\
  elements (set_nb_elem heap_1_5 1) !! 0%nat = Some (addr 3, 1) /\
  exists h1 h2,
    push mem0 (set_nb_elem heap_1_5 1) 1 = Ok (None, h1) /\
    pop mem0 h1 = Ok (3%nat, h2) /\ nb_elem h2 = 1.
Proof.
  assert (N : nb_elem (set_nb_elem heap_1_5 1) = 1) by reflexivity.
  assert (E : elements (set_nb_elem heap_1_5 1) !! 0%nat = Some (addr 3, 1))
    by reflexivity.
  assert (P : push mem0 (set_nb_elem heap_1_5 1) 1 =
              Ok (None, mkHeap 4 [(addr 3, 1); (addr 1, 1); (null, 0); (null, 0)] 2
                               [None; None; None; None] [None; None; None; None]))
    by (vm_compute; reflexivity).
  split; [exact N|]. split; [exact E|]. eexists.
  destruct (push_then_pop_on_one mem0 _ _ 1 3 1 None N E P) as (h2 & Q & N2 & _).
  exists h2. split; [exact P|]. split; [exact Q|exact N2].
Defined.

(** ** [is_valid] *)

Lemma is_valid_from_true (h : Heap) (n : nat) :
  forall i,
    0 <= i -> i + Z.of_nat n = nb_elem h - 2 -> nb_elem h < 2 ^ 31 ->
    (is_valid_from h n i = Ok true <->
     forall j, i <= j < nb_elem h - 2 -> pair_ordered_at h j).
Proof.
  induction n as [|n IH]; intros i Hi Hn B.
  - simpl. split; [intros _ j Hj; lia|reflexivity].
  - assert (R : get_pos_right_son h i = Ok (2 * i + 2)).
    { unfold get_pos_right_son. rewrite assert_true by lia. cbn [bind].
      rewrite wrap_small by lia. reflexivity. }
    assert (L : get_pos_left_son h i = Ok (2 * i + 1)).
    { unfold get_pos_left_son. rewrite assert_true by lia. cbn [bind].
      rewrite wrap_small by lia. reflexivity. }
    cbn [is_valid_from]. rewrite R, L. split.
    + intros H. ok_inv H. cbn [bind] in H. ok_inv H.
      ok_if H; [discriminate|]. ok_inv H. cbn [bind] in H. ok_inv H.
      ok_if H; [discriminate|].
      repeat match goal with
             | Hr : rd _ _ = Ok _ |- _ => apply rd_Ok in Hr as [_ Hr]
             end.
      repeat match goal with
             | Ho : Ok _ = Ok _ |- _ => injection Ho as <-
             end.
      intros j Hj. destruct (Z.eq_dec j i) as [->|Nj].
      * unfold pair_ordered_at.
        repeat match goal with
               | Ha : elements h !! Z.to_nat i = Some ?u,
                 Hb : elements h !! Z.to_nat i = Some ?w |- _ =>
                   assert (w = u) as -> by congruence; clear Hb
               end.
        eauto 10.
      * apply (IH (i + 1)); [lia|lia|exact B|exact H|lia].
    + intros P. destruct (P i ltac:(lia)) as (x & y & z & Ex & Ey & Ez & Gy & Gz).
      rewrite !(rd_lookup _ i x) by (try lia; exact Ex). cbn [bind].
      rewrite (rd_lookup _ _ y) by (try lia; exact Ey). cbn [bind]. rewrite Gy.
      rewrite (rd_lookup _ _ z) by (try lia; exact Ez). cbn [bind]. rewrite Gz.
      apply (IH (i + 1)); [lia|lia|exact B|].
      intros j Hj. apply P. lia.
Qed.

Lemma is_valid_spec (h : Heap) :
  0 <= nb_elem h < 2 ^ 31 ->
  (is_valid h = Ok true <->
   nb_elem h <= 2 \/ forall i, 0 <= i < nb_elem h - 2 -> pair_ordered_at h i).
Proof.
  intros B. unfold is_valid, is_empty.
  destruct (Z_le_dec (nb_elem h) 2) as [S|S].
  - replace ((nb_elem h =? 0) || (nb_elem h =? 1) || (nb_elem h =? 2)) with true.
    + split; [intros _; left; exact S|reflexivity].
    + symmetry. assert (C : nb_elem h = 0 \/ nb_elem h = 1 \/ nb_elem h = 2) by lia.
      destruct C as [-> | [-> | ->]]; reflexivity.
  - replace ((nb_elem h =? 0) || (nb_elem h =? 1) || (nb_elem h =? 2)) with false.
    + rewrite wrap_small by lia.
      rewrite (is_valid_from_true h _ 0) by lia.
      split; [intros P; right; exact P|intros [C|P]; [lia|exact P]].
    + symmetry. rewrite !orb_false_iff. repeat split; lia.
Qed.

(** X15.  What [is_valid] checks.  On a heap of less than [2^31] elements
    it answers [true] exactly when the heap holds at most two elements, or
    when, for every slot [i] below [nb_elem-2], the array has the slots
    [2*i+1] and [2*i+2] and the node of slot [i] is not greater than theirs
    as a pair (pointer first, id second).  The elements' values are not
    looked at. *)
Theorem is_valid_true_iff (h : Heap) :
  0 <= nb_elem h < 2 ^ 31 ->
  (is_valid h = Ok true <->
   nb_elem h <= 2 \/ forall i, 0 <= i < nb_elem h - 2 -> pair_ordered_at h i).
Proof. apply is_valid_spec. Qed.

Lemma is_valid_true_iff_witness :
  0 <= nb_elem heap_1_3_5 < 2 ^ 31 /\
  is_valid heap_1_3_5 = Ok false /\
  ~ (forall i, 0 <= i < nb_elem heap_1_3_5 - 2 -> pair_ordered_at heap_1_3_5 i).
Proof.
  assert (B : 0 <= nb_elem heap_1_3_5 < 2 ^ 31) by (simpl; lia).
  assert (V : is_valid heap_1_3_5 = Ok false) by (vm_compute; reflexivity).
  split; [exact B|]. split; [exact V|].
  intros P.
  assert (T : is_valid heap_1_3_5 = Ok true).
  { apply (is_valid_true_iff heap_1_3_5 B). right. exact P. }
  rewrite V in T. discriminate.
Defined.



(** ** [operator<<] *)

Lemma value_at_cases (mem : store) (h : Heap) (i : Z) :
  (exists v, value_at mem h i = Ok v) \/ value_at mem h i = Undefined.
Proof.
  unfold value_at.
  destruct (rd_cases (elements h) i) as [(x & R & _)|[R _]]; rewrite R; cbn [bind].
  - destruct x as [[|a] k]; simpl; eauto.
  - right. reflexivity.
Qed.

Lemma print_from_overflow (mem : store) (h : Heap) (n : nat) :
  forall i out,
    0 <= i <= 2 ^ 31 - 1 -> i + Z.of_nat n > 2 ^ 31 - 1 ->
    print_from mem h n i out = Undefined.
Proof.
  induction n as [|n IH]; intros i out Hi Hn; [lia|].
  cbn [print_from].
  destruct (value_at_cases mem h i) as [[v E]|E]; rewrite E; cbn [bind];
    [|reflexivity].
  destruct (i + 1 >? 2 ^ 31 - 1) eqn:C; [reflexivity|].
  apply IH; lia.
Qed.

(** X17.  Printing an empty heap is undefined behaviour: the bound
    [nb_elem-1] of the loop is computed on [unsigned int] and is [2^32-1],
    so that the loop reads a slot that holds no element, or leaves the
    array, or overflows its [int] index. *)
Theorem print_empty (mem : store) (out : list item) (h : Heap) :
  nb_elem h = 0 -> print mem out h = Undefined.
Proof.
  intros N. unfold print. rewrite N. change (wrap (0 - 1)) with 4294967295.
  rewrite print_from_overflow; [reflexivity|lia|lia].
Qed.

Lemma print_empty_witness :
  nb_elem (set_nb_elem heap_1_5 0) = 0 /\
  print mem0 [] (set_nb_elem heap_1_5 0) = Undefined.
Proof.
  assert (N : nb_elem (set_nb_elem heap_1_5 0) = 0) by reflexivity.
  split; [exact N|]. exact (print_empty mem0 [] _ N).
Defined.

Lemma shown_snoc (l : list Z) (x : Z) :
  shown (l ++ [x]) = flat_map (fun v => [element v; comma]) l ++ [element x].
Proof.
  induction l as [|a l IH]; [reflexivity|].
  simpl. rewrite <- IH. destruct l; reflexivity.
Qed.

Section Print.
Variable mem : store.
Variable h : Heap.
Hypothesis WF : well_formed h.

Lemma live_values_lookup (i : Z) :
  0 <= i < nb_elem h -> live_values mem h !! Z.to_nat i = Some (val mem h i).
Proof.
  intros Hi. destruct WF as (_ & _ & L). destruct (L i Hi) as (a & k & E).
  unfold live_values, live_nodes, val.
  rewrite list_lookup_fmap, lookup_take_lt by lia. rewrite E. reflexivity.
Qed.

Lemma print_from_live (n : nat) :
  forall i out,
    0 <= i -> i + Z.of_nat n <= nb_elem h ->
    print_from mem h n i out =
      Ok (out ++ flat_map (fun v => [element v; comma])
                          (take n (drop (Z.to_nat i) (live_values mem h)))).
Proof.
  induction n as [|n IH]; intros i out Hi Hn.
  - simpl. rewrite app_nil_r. reflexivity.
  - cbn [print_from]. rewrite (value_at_live mem h WF) by lia. cbn [bind].
    destruct WF as (_ & B & _).
    replace (i + 1 >? 2 ^ 31 - 1) with false by lia.
    rewrite IH by lia.
    rewrite (drop_S _ _ _ (live_values_lookup i ltac:(lia))).
    replace (Z.to_nat (i + 1)) with (S (Z.to_nat i)) by lia.
    simpl. rewrite <- app_assoc. reflexivity.
Qed.
End Print.

(** X18.  On a well-formed heap that is not empty, [operator<<] writes
    ["[ "], the live elements in the order of the array, [" , "] between
    two of them, and [" ]"], after what the stream already holds. *)
Theorem print_live (mem : store) (out : list item) (h : Heap) :
  well_formed h -> 0 < nb_elem h ->
  print mem out h =
    Ok (out ++ open_bracket :: shown (live_values mem h) ++ [close_bracket]).
Proof.
  intros WF N. pose proof WF as (B1 & B2 & _).
  unfold print. rewrite wrap_small by lia.
  rewrite (print_from_live mem h WF) by lia. cbn [bind].
  rewrite (value_at_live mem h WF) by lia. cbn [bind]. f_equal.
  change (Z.to_nat 0) with 0%nat. rewrite drop_0.
  pose proof (live_values_lookup mem h WF (nb_elem h - 1) ltac:(lia)) as E.
  assert (Len : length (live_values mem h) = Z.to_nat (nb_elem h)).
  { unfold live_values, live_nodes. rewrite length_fmap, length_take. lia. }
  assert (S : live_values mem h =
              take (Z.to_nat (nb_elem h - 1)) (live_values mem h)
              ++ [val mem h (nb_elem h - 1)]).
  { rewrite <- (take_S_r _ _ _ E).
    replace (S (Z.to_nat (nb_elem h - 1))) with (Z.to_nat (nb_elem h)) by lia.
    rewrite take_ge by lia. reflexivity. }
  rewrite S at 2. rewrite shown_snoc.
  rewrite <- !app_assoc. reflexivity.
Qed.

Lemma print_live_witness :
  well_formed heap_1_3_5 /\ 0 < nb_elem heap_1_3_5 /\
  print mem0 [] heap_1_3_5 =
    Ok [open_bracket; element 1; comma; element 3; comma; element 5; close_bracket].
Proof.
  assert (WF : well_formed heap_1_3_5) by (apply well_formedb_sound; reflexivity).
  assert (N : 0 < nb_elem heap_1_3_5) by (simpl; lia).
  split; [exact WF|]. split; [exact N|].
  exact (print_live mem0 [] heap_1_3_5 WF N).
Defined.
